(** * Redactify: the entity anonymizer of [redactify/main.py]

    A shallow embedding of [anonymize_text] and of the Python operations it
    relies on (string slicing, dict subscripting, the stable [sorted] with
    [reverse=True], f-string formatting of an [int]), followed by the
    properties of the placeholder assignment and of the right-to-left
    rewrite. *)

From Stdlib Require Import ZArith Ascii String DecimalNat.
From stdpp Require Import base list gmap sorting.

Local Open Scope Z_scope.

(** ** Python values *)

(** A Python [str] is a sequence of Unicode code points. *)
Abbreviation str := (list N) (only parsing).

(** An ASCII literal of the source, as a [str]. *)
Definition lit (s : string) : str := N_of_ascii <$> list_ascii_of_string s.

(** [len(s)] *)
Definition len (s : str) : Z := Z.of_nat (length s).

(** How a slice bound is brought into [0 .. len]: a negative bound counts
    from the end, and whatever still falls outside is clipped.  Slicing
    never raises. *)
Definition adjust_index (n i : Z) : Z :=
  if i <? 0 then Z.max 0 (i + n) else Z.min i n.

(** [s[:stop]] *)
Definition slice_to (s : str) (stop : Z) : str :=
  take (Z.to_nat (adjust_index (len s) stop)) s.

(** [s[start:]] *)
Definition slice_from (s : str) (start : Z) : str :=
  drop (Z.to_nat (adjust_index (len s) start)) s.

(** [s[start:stop]] *)
Definition slice (s : str) (start stop : Z) : str :=
  let a := adjust_index (len s) start in
  let b := adjust_index (len s) stop in
  take (Z.to_nat (b - a)) (drop (Z.to_nat a) s).

(** [str(n)] for a non-negative [int]: its decimal digits. *)
Fixpoint digits (d : Decimal.uint) : str :=
  match d with
  | Decimal.Nil => []
  | Decimal.D0 d => 48%N :: digits d
  | Decimal.D1 d => 49%N :: digits d
  | Decimal.D2 d => 50%N :: digits d
  | Decimal.D3 d => 51%N :: digits d
  | Decimal.D4 d => 52%N :: digits d
  | Decimal.D5 d => 53%N :: digits d
  | Decimal.D6 d => 54%N :: digits d
  | Decimal.D7 d => 55%N :: digits d
  | Decimal.D8 d => 56%N :: digits d
  | Decimal.D9 d => 57%N :: digits d
  end.

Definition str_of_nat (n : nat) : str := digits (Nat.to_uint n).

(** The code point of ["_"]. *)
Definition underscore : N := 95%N.

(** [f"{placeholder_type}_{n}"] *)
Definition fstring (placeholder_type : str) (n : nat) : str :=
  placeholder_type ++ underscore :: str_of_nat n.

(** ** Exceptions *)

Inductive exn : Type :=
  | KeyError (key : str).

Inductive result (A : Type) : Type :=
  | Return (a : A)
  | Raise (e : exn).
Arguments Return {A} a.
Arguments Raise {A} e.

Definition bind {A B : Type} (r : result A) (k : A → result B) : result B :=
  match r with
  | Return a => k a
  | Raise e => Raise e
  end.

Notation "x ←! r ; k" := (bind r (λ x, k))
  (at level 100, r at next level, k at level 200, right associativity,
   format "x  ←!  r ;  '/' k").

(** [d[key]]: raises [KeyError] when the key is missing. *)
Definition subscript (d : gmap str str) (key : str) : result str :=
  match d !! key with
  | Some v => Return v
  | None => Raise (KeyError key)
  end.

(** ** The detector's objects *)

(** The attributes of a spaCy entity that [anonymize_text] reads. *)
Module Span.
Record t : Type := mk {
  text : str;
  label_ : str;
  start_char : Z;
  end_char : Z
}.
End Span.

(** [doc.ents] *)
Record Doc : Type := { ents : list Span.t }.

(** The language object: [nlp.lang], and the document that the call
    [nlp(text)] returns when it returns. *)
Record Language : Type := {
  lang : str;
  pipe : str → Doc
}.

(** ** [anonymize_text] *)

(** An entry of [replacements]: [(start, end, placeholder)]. *)
Abbreviation replacement := (Z * Z * str)%type (only parsing).

Definition he_person : str := [1488; 1491; 1501]%N.
Definition he_date : str := [1514; 1488; 1512; 1497; 1498]%N.
Definition he_location : str := [1502; 1497; 1511; 1493; 1501]%N.

Definition placeholder_mapping (nlp : Language) : gmap str str :=
  let he := bool_decide (lang nlp = lit "he") in
  <[lit "PERSON" := if he then he_person else lit "person"]>
  (<[lit "DATE" := if he then he_date else lit "date"]>
  (<[lit "GPE" := if he then he_location else lit "location"]> ∅)).

(** One iteration of [for ent in doc.ents], on the pair
    [(placeholder_counter, replacements)]. *)
Definition assign_step (mapping : gmap str str)
    (st : gmap str str * list replacement) (ent : Span.t)
    : result (gmap str str * list replacement) :=
  let '(placeholder_counter, replacements) := st in
  if decide (is_Some (mapping !! Span.label_ ent)) then
    placeholder_type ←! subscript mapping (Span.label_ ent);
    let placeholder_counter :=
      if decide (placeholder_counter !! Span.text ent = None) then
        <[Span.text ent :=
            fstring placeholder_type (size placeholder_counter + 1)%nat]>
          placeholder_counter
      else placeholder_counter in
    placeholder ←! subscript placeholder_counter (Span.text ent);
    Return (placeholder_counter,
            replacements ++
              [(Span.start_char ent, Span.end_char ent, placeholder)])
  else Return st.

Fixpoint assign_loop (mapping : gmap str str) (ents : list Span.t)
    (st : gmap str str * list replacement)
    : result (gmap str str * list replacement) :=
  match ents with
  | [] => Return st
  | ent :: ents' => st' ←! assign_step mapping st ent;
                    assign_loop mapping ents' st'
  end.

(** [sorted(replacements, key=lambda x: x[0], reverse=True)].  Python's sort
    is stable and [reverse=True] keeps the original order of entries with
    equal keys, so an entry goes in front of the first one whose key is not
    greater than its own. *)
Fixpoint insert_desc (x : replacement) (l : list replacement)
    : list replacement :=
  match l with
  | [] => [x]
  | y :: l' => if y.1.1 <=? x.1.1 then x :: l else y :: insert_desc x l'
  end.

Definition sorted_reverse (replacements : list replacement)
    : list replacement :=
  foldr insert_desc [] replacements.

(** [text = text[:start] + placeholder + text[end:]] *)
Definition substitute (text : str) (r : replacement) : str :=
  let '(start, end_, placeholder) := r in
  slice_to text start ++ placeholder ++ slice_from text end_.

Definition rewrite_loop (rs : list replacement) (text : str) : str :=
  foldl substitute text rs.

(** The body of [anonymize_text], for the entities and the placeholder words
    in hand. *)
Definition anonymize (text : str) (entities : list Span.t)
    (mapping : gmap str str) : result str :=
  st ←! assign_loop mapping entities (∅, []);
  Return (rewrite_loop (sorted_reverse st.2) text).

(** [anonymize_text], from the document of [nlp(text)] on. *)
Definition anonymize_text (text : str) (nlp : Language) : result str :=
  let doc := pipe nlp text in
  anonymize text (ents doc) (placeholder_mapping nlp).

(** ** The detector's contract *)

(** The entity a detector reports for the span [(start, end, label)] of
    [text]: its [text] attribute is the matched substring. *)
Definition detected (text : str) (span : Z * Z * str) : Span.t :=
  let '(start, end_, label) := span in
  Span.mk (slice text start end_) label start end_.

(** A language object whose pipeline reports the given spans. *)
Definition detector (language : str) (spans : list (Z * Z * str))
    : Language :=
  {| lang := language;
     pipe := λ text, {| ents := detected text <$> spans |} |}.

(** ** Vocabulary of the properties *)

(** An entity is in scope when its label is a key of the placeholder
    mapping. *)
Definition in_scope (mapping : gmap str str) (ent : Span.t) : Prop :=
  is_Some (mapping !! Span.label_ ent).

Definition in_scope_ents (mapping : gmap str str) (entities : list Span.t)
    : list Span.t :=
  filter (in_scope mapping) entities.

(** The entity's [text] attribute is the substring its offsets select. *)
Definition matched (text : str) (ent : Span.t) : Prop :=
  Span.text ent = slice text (Span.start_char ent) (Span.end_char ent).

(** A span that breaks a structural constraint: [start > end], [start < 0]
    or [end > len(text)]. *)
Definition invalid_span (text : str) (ent : Span.t) : Prop :=
  Span.start_char ent > Span.end_char ent ∨ Span.start_char ent < 0
  ∨ Span.end_char ent > len text.

(** The structural constraints on a span: [0 <= start <= end <= len(text)]. *)
Definition valid_span (text : str) (ent : Span.t) : Prop :=
  0 ≤ Span.start_char ent ∧ Span.start_char ent ≤ Span.end_char ent
  ∧ Span.end_char ent ≤ len text.

(** Two spans do not overlap: one ends where the other starts, or before. *)
Definition non_overlapping (a b : Span.t) : Prop :=
  Span.end_char a ≤ Span.start_char b ∨ Span.end_char b ≤ Span.start_char a.

(** A zero-length span [a] that sits at the start of a non-empty span [b]. *)
Definition empty_at_start_of (a b : Span.t) : Prop :=
  Span.start_char a = Span.end_char a
  ∧ Span.start_char a = Span.start_char b
  ∧ Span.start_char b < Span.end_char b.

(** [R a b] for every [a] listed before [b]. *)
Fixpoint pairwise {A : Type} (R : A → A → Prop) (l : list A) : Prop :=
  match l with
  | [] => True
  | a :: l' => Forall (R a) l' ∧ pairwise R l'
  end.

(** The first entity of the list whose text is [x], with its position. *)
Definition first_occurrence (E : list Span.t) (x : str)
    : option (nat * Span.t) :=
  list_find (λ ent, Span.text ent = x) E.

(** The number of distinct texts among the entities before position [i]. *)
Definition seen_before (E : list Span.t) (i : nat) : nat :=
  length (remove_dups (Span.text <$> take i E)).

(** The entity at position [i] is [ent], and no earlier entity has its
    text. *)
Definition first_at (E : list Span.t) (i : nat) (ent : Span.t) : Prop :=
  E !! i = Some ent
  ∧ ∀ j e, (j < i)%nat → E !! j = Some e → Span.text e ≠ Span.text ent.

(** The entities are listed from left to right. *)
Definition listed_left_to_right (E : list Span.t) : Prop :=
  ∀ i j ei ej, (i < j)%nat → E !! i = Some ei → E !! j = Some ej →
               Span.start_char ei ≤ Span.start_char ej.

(** One more than the number of distinct texts met before the first
    occurrence of [x]. *)
Definition ordinal (E : list Span.t) (x : str) : nat :=
  match first_occurrence E x with
  | Some (i, _) => S (seen_before E i)
  | None => O
  end.

(** The placeholder word of the label under which [x] first occurs. *)
Definition word (mapping : gmap str str) (E : list Span.t) (x : str) : str :=
  match first_occurrence E x with
  | Some (_, ent) => default [] (mapping !! Span.label_ ent)
  | None => []
  end.

Definition placeholder_of (mapping : gmap str str) (E : list Span.t)
    (x : str) : str :=
  fstring (word mapping E x) (ordinal E x).

(** The replacement list the first loop is expected to build: one entry per
    in-scope entity, in the detector's order. *)
Definition assigned (mapping : gmap str str) (entities : list Span.t)
    : list replacement :=
  let E := in_scope_ents mapping entities in
  (λ ent, (Span.start_char ent, Span.end_char ent,
           placeholder_of mapping E (Span.text ent))) <$> E.

(** The reference rewrite: from [cursor], the untouched segment up to the
    next span, its placeholder, and so on; after the last span, the segment
    up to [stop]. *)
Fixpoint reference_from (text : str) (cursor : Z) (ltr : list replacement)
    (stop : Z) : str :=
  match ltr with
  | [] => slice text cursor stop
  | (start, end_, placeholder) :: ltr' =>
      slice text cursor start ++ placeholder
        ++ reference_from text end_ ltr' stop
  end.

Definition reference_rewrite (text : str) (ltr : list replacement) : str :=
  reference_from text 0 ltr (len text).

(** Replacements laid out from left to right between [cursor] and [stop]:
    each one starts where the previous one ended, or later. *)
Fixpoint left_to_right (cursor : Z) (ltr : list replacement) (stop : Z)
    : Prop :=
  match ltr with
  | [] => cursor ≤ stop
  | (start, end_, _) :: ltr' =>
      cursor ≤ start ∧ start ≤ end_ ∧ left_to_right end_ ltr' stop
  end.

(** Position [i] lies in one of the spans. *)
Definition covered (E : list Span.t) (i : Z) : Prop :=
  Exists (λ ent, Span.start_char ent ≤ i < Span.end_char ent) E.

(** The characters of [l], which sit at positions [k], [k+1], ... of the
    text, that no span of [E] covers. *)
Fixpoint outside_from (E : list Span.t) (k : Z) (l : str) : str :=
  match l with
  | [] => []
  | ch :: l' =>
      if decide (covered E k) then outside_from E (k + 1) l'
      else ch :: outside_from E (k + 1) l'
  end.

Definition outside (E : list Span.t) (text : str) : str :=
  outside_from E 0 text.

(** ** Sample documents *)

Definition alice : str := lit "Alice met Bob. Alice left.".

Definition alice_spans : list (Z * Z * str) :=
  [(0, 5, lit "PERSON"); (10, 13, lit "PERSON"); (15, 20, lit "PERSON")].

(** The mapping [{PERSON: "person"}]. *)
Definition person_only : gmap str str := {[ lit "PERSON" := lit "person" ]}.

(** The two persons of ["Alice met Bob"], the one on the right listed
    first. *)
Definition bob_then_alice : list (Z * Z * str) :=
  [(10, 13, lit "PERSON"); (0, 5, lit "PERSON")].

(** The words [anonymize_text] uses for a language other than ["he"]. *)
Definition english_words : gmap str str :=
  placeholder_mapping {| lang := lit "en"; pipe := λ _, {| ents := [] |} |}.

(** ** Invariants of the loops *)

(** What holds of [(placeholder_counter, replacements)] once the loop has
    consumed the in-scope entities [E]. *)
Definition assigned_so_far (m : gmap str str) (E : list Span.t)
    (st : gmap str str * list replacement) : Prop :=
  (∀ x, x ∈ Span.text <$> E → st.1 !! x = Some (placeholder_of m E x))
  ∧ (∀ x, x ∉ Span.text <$> E → st.1 !! x = None)
  ∧ size st.1 = length (remove_dups (Span.text <$> E))
  ∧ st.2 = (λ ent, (Span.start_char ent, Span.end_char ent,
                    placeholder_of m E (Span.text ent))) <$> E.

(** The entry applied later starts no further right. *)
Definition starts_descend (a b : replacement) : Prop := b.1.1 ≤ a.1.1.

(** The entry applied later ends where the earlier one starts, or before. *)
Definition ends_before (a b : replacement) : Prop := b.1.2 ≤ a.1.1.

(** What the batch order must grant for [ends_before] to hold after the
    sort, of an entry [a] listed before an entry [b]. *)
Definition clear_of (a b : replacement) : Prop :=
  b.1.2 ≤ a.1.1 ∨ (a.1.2 ≤ b.1.1 ∧ a.1.1 < b.1.1).

(** Two entries share no position. *)
Definition overlap_free (a b : replacement) : Prop :=
  a.1.2 ≤ b.1.1 ∨ b.1.2 ≤ a.1.1.

(** The entry applied later ends where the earlier one starts, or before,
    unless the earlier one is a zero-length entry at the later one's start. *)
Definition tie_or_before (a b : replacement) : Prop :=
  b.1.1 ≤ a.1.1 ∧ (b.1.2 ≤ a.1.1 ∨ (a.1.1 = a.1.2 ∧ b.1.1 = a.1.1)).

(** The characters from position [q] on that no span covers. *)
Definition rest_outside (E : list Span.t) (text : str) (q : Z) : str :=
  outside_from E q (slice_from text q).

(** The rewritten text is [text[:c]] followed by [G], and [P q G2] says that
    [G2] carries what must survive of the input from position [q] on: up to
    position [m], whatever [G] has gained sits in front of such a [G2]. *)
Definition carries (P : Z → str → Prop) (c m : Z) (G : str) : Prop :=
  ∀ q, c ≤ q ≤ m → ∃ G1 G2, G = G1 ++ G2 ∧ q - c ≤ len G1 ∧ P q G2.

(** What is known of an entry yet to apply: where it lies, that its start is
    a cut point [Q], and that nothing of what must survive lies in it. *)
Definition fits (P : Z → str → Prop) (Q : Z → Prop) (c m : Z)
    (r : replacement) : Prop :=
  0 ≤ r.1.1 ∧ r.1.1 ≤ r.1.2 ∧ r.1.1 ≤ c ∧ r.1.2 ≤ m
  ∧ (r.1.2 ≤ c ∨ r.1.1 = c)
  ∧ Q r.1.1
  ∧ (∀ D, P r.1.2 D → P r.1.1 D).

(** [G] has the uncovered characters from [q] on, in order. *)
Definition carries_outside (E : list Span.t) (text : str) (q : Z) (G : str)
    : Prop :=
  rest_outside E text q `sublist_of` G.

(** [G] has the stretch [text[a:b]] whole, when it lies at [q] or after. *)
Definition carries_stretch (text : str) (a b : Z) (q : Z) (G : str) : Prop :=
  q ≤ a → ∃ X Y, G = X ++ slice text a b ++ Y.

(** Position [c] does not cut the stretch from [a] to [b]. *)
Definition clear_cut (a b c : Z) : Prop := c ≤ a ∨ b ≤ c.

(** Facts about the spans of a sample document, by evaluation. *)
Ltac crunch_spans :=
  vm_compute;
  repeat first
    [ apply Forall_nil_2 | apply Forall_cons_2 | split | exact I
    | discriminate | (left; discriminate) | (right; discriminate)
    | (intros [H _]; discriminate H)
    | (intros (_ & H & _); discriminate H)
    | (intros (_ & _ & H); discriminate H) ].

(** ** The program around [anonymize_text] *)

(** The code point of the line feed. *)
Definition newline : N := 10%N.

(** ["\n".join(parts)] *)
Fixpoint join_lines (parts : list str) : str :=
  match parts with
  | [] => []
  | part :: parts' =>
      match parts' with
      | [] => part
      | _ :: _ => part ++ newline :: join_lines parts'
      end
  end.

(** [text.split("\n")]: the stretches between line feeds, one more than
    there are line feeds. *)
Fixpoint split_lines (text : str) : list str :=
  match text with
  | [] => [[]]
  | ch :: text' =>
      if decide (ch = newline) then [] :: split_lines text'
      else match split_lines text' with
           | [] => [[ch]]
           | line :: lines => (ch :: line) :: lines
           end
  end.

(** The calls the program makes to spaCy, to the file system, to
    python-docx, to FPDF and to the console.  [nlp_call] is the call
    [nlp(text)] of the language object, [open_read] stands for the block
    that opens a file for reading in UTF-8 and reads it whole, [open_write]
    for the block that opens a file for writing in UTF-8 and writes a text
    to it. *)
Inductive call : Type :=
  | spacy_load (name : str)
  | nlp_call (text : str)
  | open_read (path : str)
  | Document_open (path : str)
  | open_write (path : str) (text : str)
  | Document_new
  | add_paragraph (text : str)
  | Document_save (path : str)
  | FPDF_new
  | add_page
  | set_auto_page_break (auto : bool) (margin : Z)
  | set_font (family : str) (size : Z)
  | multi_cell (w h : Z) (txt : str)
  | FPDF_output (path : str)
  | print_ (message : str).

(** What the program can raise: its own [ValueError]s, an exception of
    [anonymize_text], or whatever a library call raises. *)
Inductive raised : Type :=
  | ValueError (message : str)
  | CoreError (e : exn)
  | LibraryError (e : str).

(** The libraries, as the program sees them.  Every answer may depend on the
    calls made so far. *)
Record Libraries : Type := {
  (** [Path(path).suffix] *)
  suffix : str → str;
  (** [spacy.load(name)]: the language object, or an exception *)
  models : list call → str → str + Language;
  (** what reading the file at [path] returns, or an exception *)
  contents : list call → str → str + str;
  (** the texts of the paragraphs of [Document(path)], or an exception *)
  paragraphs : list call → str → str + list str;
  (** the exception raised, if one is, by a call whose result the
      libraries do not choose: a call without a result, or [nlp(text)],
      whose document is the one of the language object *)
  refused : list call → call → option str
}.

(** A computation that makes calls: from the calls made so far to the calls
    made after it, with what it raised or returned. *)
Definition io (A : Type) : Type := list call → list call * (raised + A).

Definition io_ret {A : Type} (a : A) : io A := λ log, (log, inr a).

Definition io_raise {A : Type} (e : raised) : io A := λ log, (log, inl e).

Definition io_bind {A B : Type} (m : io A) (k : A → io B) : io B :=
  λ log, match m log with
         | (log', inl e) => (log', inl e)
         | (log', inr a) => k a log'
         end.

Notation "x ←$ m ; k" := (io_bind m (λ x, k))
  (at level 100, m at next level, k at level 200, right associativity,
   format "x  ←$  m ;  '/' k").
Notation "m ;;$ k" := (io_bind m (λ _, k))
  (at level 100, k at level 200, right associativity,
   format "m  ;;$  '/' k").

(** A call with a result. *)
Definition ask {A : Type} (c : call) (answer : list call → str + A) : io A :=
  λ log, (log ++ [c],
          match answer log with
          | inl e => inl (LibraryError e)
          | inr a => inr a
          end).

(** A call without a result. *)
Definition perform (L : Libraries) (c : call) : io unit :=
  ask c (λ log, match refused L log c with
                | Some e => inl e
                | None => inr tt
                end).

(** [for x in l: f(x)] *)
Fixpoint for_each {A : Type} (f : A → io unit) (l : list A) : io unit :=
  match l with
  | [] => io_ret tt
  | x :: l' => f x ;;$ for_each f l'
  end.

(** What [anonymize_text] returns or raises, inside the program. *)
Definition of_result {A : Type} (r : result A) : io A :=
  match r with
  | Return a => io_ret a
  | Raise e => io_raise (CoreError e)
  end.

(** [anonymize_text(text, nlp)] as the program runs it.  Its first line,
    [doc = nlp(text)], is a call to spaCy like the others: it is made, and
    it may raise; when it returns, the document is [pipe nlp text] and the
    rest is the body of the function. *)
Definition anonymize_text_call (L : Libraries) (text : str) (nlp : Language)
    : io str :=
  doc ←$ ask (nlp_call text)
           (λ log, match refused L log (nlp_call text) with
                   | Some e => inl e
                   | None => inr (pipe nlp text)
                   end);
  of_result (anonymize text (ents doc) (placeholder_mapping nlp)).

Definition load_language_model (L : Libraries) (language : str)
    : io Language :=
  if decide (language = lit "english") then
    ask (spacy_load (lit "en_core_web_sm"))
      (λ log, models L log (lit "en_core_web_sm"))
  else if decide (language = lit "hebrew") then
    ask (spacy_load (lit "he_core_news_sm"))
      (λ log, models L log (lit "he_core_news_sm"))
  else
    io_raise (ValueError
      (lit "Unsupported language. Choose either 'english' or 'hebrew'.")).

Definition read_file (L : Libraries) (input_path : str) : io str :=
  if decide (suffix L input_path = lit ".txt") then
    ask (open_read input_path) (λ log, contents L log input_path)
  else if decide (suffix L input_path = lit ".docx") then
    doc ←$ ask (Document_open input_path)
             (λ log, paragraphs L log input_path);
    io_ret (join_lines doc)
  else
    io_raise (ValueError
      (lit "Unsupported file type. Supported types are: .txt, .docx")).

Definition write_file (L : Libraries) (output_path text format : str)
    : io unit :=
  if decide (format = lit "txt") then
    perform L (open_write output_path text)
  else if decide (format = lit "docx") then
    perform L Document_new ;;$
    for_each (λ line, perform L (add_paragraph line)) (split_lines text) ;;$
    perform L (Document_save output_path)
  else if decide (format = lit "pdf") then
    perform L FPDF_new ;;$
    perform L add_page ;;$
    perform L (set_auto_page_break true 15) ;;$
    perform L (set_font (lit "Arial") 12) ;;$
    for_each (λ line, perform L (multi_cell 0 10 line)) (split_lines text) ;;$
    perform L (FPDF_output output_path)
  else
    io_raise (ValueError
      (lit "Unsupported output format. Supported formats are: txt, docx, pdf.")).

Definition main (L : Libraries)
    (input_path output_path language output_format : str) : io unit :=
  nlp ←$ load_language_model L language;
  text ←$ read_file L input_path;
  anonymized_text ←$ anonymize_text_call L text nlp;
  write_file L output_path anonymized_text output_format ;;$
  perform L (print_ (lit "Anonymized file created at: " ++ output_path)).

(** Libraries for the sample document: every path has the suffix [ext],
    spaCy detects [spans], every file reads as [alice], every document has
    the lines of [alice] as paragraphs, and no call raises. *)
Definition sample_libraries (ext : str) (spans : list (Z * Z * str))
    : Libraries :=
  {| suffix := λ _, ext;
     models := λ _ name,
       inr (detector (if decide (name = lit "he_core_news_sm")
                      then lit "he" else lit "en") spans);
     contents := λ _ _, inr alice;
     paragraphs := λ _ _, inr (split_lines alice);
     refused := λ _ _, None |}.

(** The same libraries, with a pipeline that raises on every text. *)
Definition overlong_libraries (ext : str) (spans : list (Z * Z * str))
    : Libraries :=
  {| suffix := suffix (sample_libraries ext spans);
     models := models (sample_libraries ext spans);
     contents := contents (sample_libraries ext spans);
     paragraphs := paragraphs (sample_libraries ext spans);
     refused := λ _ c,
       match c with
       | nlp_call _ => Some (lit "[E088] Text exceeds maximum")
       | _ => None
       end |}.

(** ** Vocabulary of the program's properties *)

(** No call of the run [calls], made after the calls of [log], raises. *)
Definition none_raises (L : Libraries) (log calls : list call) : Prop :=
  ∀ pre c rest, calls = pre ++ c :: rest → refused L (log ++ pre) c = None.

(** The calls [write_file] has to make for a supported format, in order. *)
Definition write_calls (output_path text format : str) : list call :=
  if decide (format = lit "txt") then [open_write output_path text]
  else if decide (format = lit "docx") then
    Document_new :: (add_paragraph <$> split_lines text)
      ++ [Document_save output_path]
  else
    [FPDF_new; add_page; set_auto_page_break true 15;
     set_font (lit "Arial") 12]
      ++ (multi_cell 0 10 <$> split_lines text)
      ++ [FPDF_output output_path].

Definition supported_format (format : str) : Prop :=
  format = lit "txt" ∨ format = lit "docx" ∨ format = lit "pdf".

(** The texts of the paragraphs added by a run of calls. *)
Definition added_paragraphs (calls : list call) : list str :=
  omap (λ c, match c with add_paragraph text => Some text | _ => None end)
    calls.

(** The number of line feeds of a text. *)
Definition line_feeds (text : str) : nat :=
  length (filter (λ ch, ch = newline) text).

(** The model [load_language_model] loads for a language. *)
Definition loads (language name : str) : Prop :=
  (language = lit "english" ∧ name = lit "en_core_web_sm")
  ∨ (language = lit "hebrew" ∧ name = lit "he_core_news_sm").

(** The message of the confirmation [main] prints. *)
Definition confirmation (output_path : str) : str :=
  lit "Anonymized file created at: " ++ output_path.

(** A call that reads or writes a file does so at [input_path], for a read,
    or at [output_path], for a write. *)
Definition touches_only (input_path output_path : str) (c : call) : Prop :=
  match c with
  | open_read path | Document_open path => path = input_path
  | open_write path _ | Document_save path | FPDF_output path =>
      path = output_path
  | _ => True
  end.

(** The call that completes the output file. *)
Definition completes (output_path : str) (c : call) : Prop :=
  (∃ text, c = open_write output_path text)
  ∨ c = Document_save output_path ∨ c = FPDF_output output_path.

(** ** Slices *)

Lemma len_nonneg (s : str) : 0 ≤ len s.
Proof. unfold len. lia. Qed.

Lemma len_app (s t : str) : len (s ++ t) = len s + len t.
Proof. unfold len. rewrite length_app. lia. Qed.

Lemma adjust_index_in_range (n i : Z) : 0 ≤ i ≤ n → adjust_index n i = i.
Proof.
  intros Hi. unfold adjust_index.
  destruct (Z.ltb_spec i 0); lia.
Qed.

Lemma slice_to_in_range (s : str) (i : Z) :
  0 ≤ i ≤ len s → slice_to s i = take (Z.to_nat i) s.
Proof. intros Hi. unfold slice_to. by rewrite adjust_index_in_range. Qed.

Lemma slice_from_in_range (s : str) (i : Z) :
  0 ≤ i ≤ len s → slice_from s i = drop (Z.to_nat i) s.
Proof. intros Hi. unfold slice_from. by rewrite adjust_index_in_range. Qed.

Lemma slice_in_range (s : str) (i j : Z) :
  0 ≤ i ≤ len s → 0 ≤ j ≤ len s →
  slice s i j = take (Z.to_nat (j - i)) (drop (Z.to_nat i) s).
Proof.
  intros Hi Hj. unfold slice. by rewrite !adjust_index_in_range.
Qed.

Lemma slice_to_from (s : str) (i : Z) : slice_to s i ++ slice_from s i = s.
Proof. unfold slice_to, slice_from. apply take_drop. Qed.

(** A segment splits at any position in between. *)
Lemma slice_split (s : str) (i j k : Z) :
  0 ≤ i → i ≤ j → j ≤ k → k ≤ len s →
  slice s i k = slice s i j ++ slice s j k.
Proof.
  intros Hi Hij Hjk Hk. rewrite !slice_in_range by lia.
  replace (Z.to_nat (k - i)) with (Z.to_nat (j - i) + Z.to_nat (k - j))%nat
    by lia.
  rewrite <- take_take_drop, drop_drop.
  do 3 f_equal. lia.
Qed.

Lemma slice_whole_tail (s : str) (i : Z) :
  0 ≤ i ≤ len s → slice s i (len s) = drop (Z.to_nat i) s.
Proof.
  intros Hi. rewrite slice_in_range by (pose proof (len_nonneg s); lia).
  apply take_ge. rewrite length_drop. unfold len. lia.
Qed.

Lemma len_slice (s : str) (i j : Z) :
  0 ≤ i → i ≤ j → j ≤ len s → len (slice s i j) = j - i.
Proof.
  intros Hi Hij Hj. rewrite slice_in_range by lia.
  unfold len in *. rewrite length_take, length_drop. lia.
Qed.

(** Bounds outside the text, as Python clips them. *)
Example slice_clipping :
  slice_to (lit "hello") (-2) = lit "hel"
  ∧ slice_from (lit "hello") 9 = []
  ∧ slice_from (lit "hello") (-9) = lit "hello"
  ∧ slice (lit "hello") 3 1 = []
  ∧ slice (lit "hello") 1 3 = lit "el".
Proof. repeat split. Qed.

(** ** Formatting of placeholders *)

Example fstring_person_12 : fstring (lit "person") 12 = lit "person_12".
Proof. reflexivity. Qed.


Lemma digits_no_underscore (d : Decimal.uint) : underscore ∉ digits d.
Proof.
  induction d; simpl; first (by apply not_elem_of_nil);
    (apply not_elem_of_cons; split; [by unfold underscore | done]).
Qed.

Lemma digits_inj (d1 d2 : Decimal.uint) : digits d1 = digits d2 → d1 = d2.
Proof.
  revert d2. induction d1; intros [] Heq; simpl in Heq;
    try discriminate; try reflexivity;
    injection Heq as Heq; f_equal; by apply IHd1.
Qed.

Lemma str_of_nat_inj (n1 n2 : nat) : str_of_nat n1 = str_of_nat n2 → n1 = n2.
Proof.
  unfold str_of_nat. intros Heq%digits_inj. by apply Unsigned.to_uint_inj.
Qed.

(** A string splits in one way only at a separator that its right part does
    not contain. *)
Lemma split_at_last (u : N) (w1 w2 d1 d2 : str) :
  u ∉ d1 → u ∉ d2 → w1 ++ u :: d1 = w2 ++ u :: d2 → w1 = w2 ∧ d1 = d2.
Proof.
  intros Hd1 Hd2. revert w2.
  induction w1 as [|a w1 IH]; intros [|b w2] Heq; simpl in Heq.
  - by injection Heq.
  - injection Heq as -> ->. exfalso. apply Hd1.
    apply elem_of_app. right. by left.
  - injection Heq as -> <-. exfalso. apply Hd2.
    apply elem_of_app. right. by left.
  - injection Heq as -> Heq. destruct (IH _ Heq) as [-> ->]. done.
Qed.

Lemma fstring_inj (w1 w2 : str) (n1 n2 : nat) :
  fstring w1 n1 = fstring w2 n2 → w1 = w2 ∧ n1 = n2.
Proof.
  unfold fstring. intros Heq.
  apply split_at_last in Heq as [-> Heq]; try apply digits_no_underscore.
  split; [done | by apply str_of_nat_inj].
Qed.

(** ** Counting distinct texts *)

Lemma distinct_snoc_old (l : list str) (x : str) :
  x ∈ l → length (remove_dups (l ++ [x])) = length (remove_dups l).
Proof.
  intros Hx. apply Permutation_length, NoDup_Permutation;
    try apply NoDup_remove_dups.
  intros y. rewrite !elem_of_remove_dups, elem_of_app, list_elem_of_singleton.
  split; [by intros [?| ->] | by left].
Qed.

Lemma distinct_snoc_new (l : list str) (x : str) :
  x ∉ l → length (remove_dups (l ++ [x])) = S (length (remove_dups l)).
Proof.
  intros Hx. change (S (length (remove_dups l)))
    with (length (x :: remove_dups l)).
  apply Permutation_length, NoDup_Permutation.
  - apply NoDup_remove_dups.
  - apply NoDup_cons. split; [by rewrite elem_of_remove_dups|].
    apply NoDup_remove_dups.
  - intros y. rewrite elem_of_cons, !elem_of_remove_dups, elem_of_app,
      list_elem_of_singleton. tauto.
Qed.

Lemma distinct_grows (l1 l2 : list str) (x : str) :
  (∀ y, y ∈ l1 → y ∈ l2) → x ∈ l2 → x ∉ l1 →
  (length (remove_dups l1) < length (remove_dups l2))%nat.
Proof.
  intros Hsub Hx2 Hx1.
  enough (length (x :: remove_dups l1) ≤ length (remove_dups l2))%nat
    by (simpl in *; lia).
  apply submseteq_length, NoDup_submseteq.
  - apply NoDup_cons. split; [by rewrite elem_of_remove_dups|].
    apply NoDup_remove_dups.
  - intros y. rewrite elem_of_cons, !elem_of_remove_dups.
    intros [->|Hy]; auto.
Qed.

(** ** First occurrences *)

Lemma first_occurrence_Some (E : list Span.t) (x : str) :
  x ∈ Span.text <$> E →
  ∃ i ent, first_occurrence E x = Some (i, ent) ∧ E !! i = Some ent
           ∧ Span.text ent = x ∧ (i < length E)%nat.
Proof.
  intros (ent & -> & Hent)%list_elem_of_fmap.
  destruct (list_find_elem_of (λ e, Span.text e = Span.text ent) E ent)
    as [[i ent0] Hfind]; [done..|].
  exists i, ent0. split; [done|].
  apply list_find_Some in Hfind as (Hi & Htext & _).
  eauto using lookup_lt_Some.
Qed.

Lemma first_occurrence_None (E : list Span.t) (x : str) :
  x ∉ Span.text <$> E → first_occurrence E x = None.
Proof.
  intros Hx. apply list_find_None, Forall_forall. intros ent Hent Htext.
  apply Hx, list_elem_of_fmap. eauto.
Qed.

Lemma first_occurrence_snoc_old (E : list Span.t) (ent : Span.t) (x : str) :
  x ∈ Span.text <$> E →
  first_occurrence (E ++ [ent]) x = first_occurrence E x.
Proof.
  intros (i & ent0 & Hfind & _)%first_occurrence_Some.
  rewrite Hfind. by apply list_find_app_l.
Qed.

Lemma first_occurrence_snoc_new (E : list Span.t) (ent : Span.t) :
  Span.text ent ∉ Span.text <$> E →
  first_occurrence (E ++ [ent]) (Span.text ent) = Some (length E, ent).
Proof.
  intros Hx%first_occurrence_None. unfold first_occurrence in *.
  rewrite list_find_app_r by done. simpl.
  by rewrite decide_True by done.
Qed.

Lemma placeholder_of_snoc_old (m : gmap str str)
    (E : list Span.t) (ent : Span.t) (x : str) :
  x ∈ Span.text <$> E →
  placeholder_of m (E ++ [ent]) x = placeholder_of m E x.
Proof.
  intros Hx. unfold placeholder_of, word, ordinal, seen_before.
  rewrite first_occurrence_snoc_old by done.
  apply first_occurrence_Some in Hx as (i & ent0 & -> & _ & _ & Hi).
  by rewrite take_app_le by lia.
Qed.

Lemma placeholder_of_snoc_new (m : gmap str str)
    (E : list Span.t) (ent : Span.t) (w : str) :
  Span.text ent ∉ Span.text <$> E →
  m !! Span.label_ ent = Some w →
  placeholder_of m (E ++ [ent]) (Span.text ent)
  = fstring w (length (remove_dups (Span.text <$> E)) + 1)%nat.
Proof.
  intros Hx Hw. unfold placeholder_of, word, ordinal, seen_before.
  rewrite first_occurrence_snoc_new by done.
  rewrite Hw, take_app_length. simpl. f_equal. lia.
Qed.

(** ** The assignment loop *)

Lemma assigned_so_far_init (m : gmap str str) :
  assigned_so_far m [] (∅, []).
Proof.
  unfold assigned_so_far. cbn [fst snd]. split_and!; [| |done..].
  - intros x Hx. by apply elem_of_nil in Hx.
  - intros x _. apply lookup_empty.
Qed.

Lemma assign_step_out_of_scope (m : gmap str str)
    (st : gmap str str * list replacement) (ent : Span.t) :
  ¬ in_scope m ent → assign_step m st ent = Return st.
Proof.
  intros Hout. unfold assign_step. destruct st as [c acc].
  by rewrite decide_False.
Qed.

Lemma assign_step_in_scope (m : gmap str str) (E : list Span.t)
    (st : gmap str str * list replacement) (ent : Span.t) :
  in_scope m ent → assigned_so_far m E st →
  ∃ st', assign_step m st ent = Return st'
         ∧ assigned_so_far m (E ++ [ent]) st'.
Proof.
  intros Hin (Hc & Hfree & Hsize & Hacc). destruct st as [c acc].
  cbn [fst snd] in *.
  assert (Hold : ∀ y, y ∈ Span.text <$> E →
            placeholder_of m (E ++ [ent]) y = placeholder_of m E y)
    by (intros; by apply placeholder_of_snoc_old).
  assert (Hacc' : ∀ p, p = placeholder_of m (E ++ [ent]) (Span.text ent) →
    acc ++ [(Span.start_char ent, Span.end_char ent, p)]
    = (λ e, (Span.start_char e, Span.end_char e,
             placeholder_of m (E ++ [ent]) (Span.text e))) <$> (E ++ [ent])).
  { intros p ->. rewrite fmap_app, Hacc. f_equal.
    apply list_fmap_ext. intros i e He. f_equal. symmetry. apply Hold.
    apply list_elem_of_fmap. eauto using list_elem_of_lookup_2. }
  assert (Htexts : ∀ y, y ∈ Span.text <$> (E ++ [ent]) ↔
            y ∈ Span.text <$> E ∨ y = Span.text ent).
  { intros y. rewrite fmap_app, elem_of_app. simpl.
    by rewrite list_elem_of_singleton. }
  unfold assign_step. rewrite decide_True by done.
  destruct Hin as [w Hw]. unfold subscript at 1. rewrite Hw. simpl.
  destruct (decide (Span.text ent ∈ Span.text <$> E)) as [Hseen|Hnew].
  - pose proof (Hc _ Hseen) as Hx.
    rewrite decide_False by (by rewrite Hx).
    unfold subscript. rewrite Hx. simpl. eexists. split; [done|].
    unfold assigned_so_far. cbn [fst snd]. split_and!.
    + intros y [Hy| ->]%Htexts; rewrite Hold by done; auto.
    + intros y Hy. apply Hfree. intros Hy'. apply Hy, Htexts. by left.
    + rewrite fmap_app. simpl. by rewrite distinct_snoc_old.
    + apply Hacc'. by rewrite Hold.
  - pose proof (Hfree _ Hnew) as Hx.
    rewrite decide_True by done.
    unfold subscript. rewrite lookup_insert_eq. simpl.
    pose proof (placeholder_of_snoc_new m E ent w Hnew Hw) as Hph.
    rewrite <- Hsize in Hph.
    eexists. split; [done|].
    unfold assigned_so_far. cbn [fst snd]. split_and!.
    + intros y Hy%Htexts.
      destruct (decide (Span.text ent = y)) as [<-|Hne].
      * by rewrite lookup_insert_eq, Hph.
      * rewrite lookup_insert_ne by done.
        destruct Hy as [Hy| ->]; [|done]. rewrite Hold by done. auto.
    + intros y Hy. rewrite lookup_insert_ne.
      * apply Hfree. intros Hy'. apply Hy, Htexts. by left.
      * intros <-. apply Hy, Htexts. by right.
    + rewrite map_size_insert_None by done.
      rewrite fmap_app. simpl. rewrite distinct_snoc_new by done. lia.
    + apply Hacc'. by rewrite Hph.
Qed.

Lemma assign_loop_spec (m : gmap str str) (entities : list Span.t) :
  ∀ (P : list Span.t) st,
    assigned_so_far m (in_scope_ents m P) st →
    ∃ st', assign_loop m entities st = Return st'
           ∧ assigned_so_far m (in_scope_ents m (P ++ entities)) st'.
Proof.
  induction entities as [|ent entities IH]; intros P st Hst; simpl.
  - exists st. by rewrite app_nil_r.
  - replace (P ++ ent :: entities) with ((P ++ [ent]) ++ entities)
      by (by rewrite <- app_assoc).
    destruct (decide (in_scope m ent)) as [Hin|Hout].
    + destruct (assign_step_in_scope m _ st ent Hin Hst) as (st1 & -> & Hst1).
      simpl. apply IH. unfold in_scope_ents. rewrite filter_app.
      rewrite filter_cons_True by done. done.
    + rewrite assign_step_out_of_scope by done. simpl.
      apply IH. unfold in_scope_ents. rewrite filter_app.
      rewrite filter_cons_False by done. simpl. by rewrite app_nil_r.
Qed.

(** The first loop never raises, and builds the expected replacements. *)
Lemma assign_loop_assigned (m : gmap str str)
    (entities : list Span.t) :
  ∃ c, assign_loop m entities (∅, []) = Return (c, assigned m entities).
Proof.
  destruct (assign_loop_spec m entities [] (∅, []))
    as ([c acc] & Hrun & _ & _ & _ & Hacc); [apply assigned_so_far_init|].
  simpl in *. exists c. by rewrite Hrun, Hacc.
Qed.

Lemma anonymize_assigned (text : str) (entities : list Span.t)
    (m : gmap str str) :
  anonymize text entities m
  = Return (rewrite_loop (sorted_reverse (assigned m entities)) text).
Proof.
  unfold anonymize.
  destruct (assign_loop_assigned m entities) as [c ->]. done.
Qed.

(** ** The sort *)

(** Descending starts, entries with equal starts in their original order. *)
Example sorted_reverse_stable :
  sorted_reverse [(2, 2, lit "a"); (5, 6, lit "b"); (2, 5, lit "c")]
  = [(5, 6, lit "b"); (2, 2, lit "a"); (2, 5, lit "c")].
Proof. reflexivity. Qed.

Lemma insert_desc_perm (x : replacement) (l : list replacement) :
  insert_desc x l ≡ₚ x :: l.
Proof.
  induction l as [|y l IH]; simpl; [done|].
  destruct (y.1.1 <=? x.1.1); [done|].
  rewrite IH. apply Permutation_swap.
Qed.

Lemma sorted_reverse_perm (l : list replacement) :
  sorted_reverse l ≡ₚ l.
Proof.
  induction l as [|x l IH]; simpl; [done|].
  by rewrite insert_desc_perm, IH.
Qed.

Lemma Forall_insert_desc (P : replacement → Prop) (x : replacement)
    (l : list replacement) :
  Forall P (insert_desc x l) ↔ P x ∧ Forall P l.
Proof. by rewrite insert_desc_perm, Forall_cons. Qed.

Lemma Forall_sorted_reverse (P : replacement → Prop)
    (l : list replacement) :
  Forall P (sorted_reverse l) ↔ Forall P l.
Proof. by rewrite sorted_reverse_perm. Qed.

Lemma insert_desc_sorted (x : replacement) (l : list replacement) :
  StronglySorted starts_descend l →
  StronglySorted starts_descend (insert_desc x l).
Proof.
  induction 1 as [|y l Hl IH Hy]; simpl.
  - repeat constructor.
  - destruct (Z.leb_spec y.1.1 x.1.1) as [Hle|Hgt].
    + constructor; [by constructor|].
      constructor; [done|].
      eapply Forall_impl; [exact Hy|]. unfold starts_descend. intros; lia.
    + constructor; [done|].
      apply Forall_insert_desc. split; [unfold starts_descend; lia|done].
Qed.

Lemma sorted_reverse_sorted (l : list replacement) :
  StronglySorted starts_descend (sorted_reverse l).
Proof.
  induction l as [|x l IH]; simpl; [constructor|].
  by apply insert_desc_sorted.
Qed.

Lemma insert_desc_chain (x : replacement) (l : list replacement) :
  x.1.1 ≤ x.1.2 → Forall (λ r, r.1.1 ≤ r.1.2) l →
  Forall (clear_of x) l →
  StronglySorted ends_before l →
  StronglySorted ends_before (insert_desc x l).
Proof.
  intros Hx Hvalid Hclear Hsorted. revert Hvalid Hclear.
  induction Hsorted as [|y l Hl IH Hy]; intros Hvalid Hclear; simpl.
  - repeat constructor.
  - apply Forall_cons in Hvalid as [Hvy Hvalid].
    apply Forall_cons in Hclear as [Hcy Hclear].
    unfold clear_of in Hcy.
    destruct (Z.leb_spec y.1.1 x.1.1) as [Hle|Hgt].
    + constructor; [by constructor|].
      constructor; [unfold ends_before; lia|].
      eapply Forall_impl; [exact Hy|]. unfold ends_before. intros; lia.
    + constructor; [by apply IH|].
      apply Forall_insert_desc. split; [unfold ends_before; lia|done].
Qed.

Lemma sorted_reverse_chain (l : list replacement) :
  Forall (λ r, r.1.1 ≤ r.1.2) l → pairwise clear_of l →
  StronglySorted ends_before (sorted_reverse l).
Proof.
  induction l as [|x l IH]; simpl; [constructor|].
  intros [Hx Hvalid]%Forall_cons [Hclear Hpairs].
  apply insert_desc_chain; auto.
  - by apply Forall_sorted_reverse.
  - by apply Forall_sorted_reverse.
Qed.

Lemma pairwise_fmap {A B : Type} (f : A → B) (R : B → B → Prop)
    (l : list A) :
  pairwise R (f <$> l) ↔ pairwise (λ a b, R (f a) (f b)) l.
Proof.
  induction l as [|a l IH]; simpl; [done|].
  by rewrite Forall_fmap, IH.
Qed.

Lemma pairwise_impl {A : Type} (P : A → Prop) (R R' : A → A → Prop)
    (l : list A) :
  (∀ a b, P a → P b → R a b → R' a b) →
  Forall P l → pairwise R l → pairwise R' l.
Proof.
  intros HR. induction l as [|a l IH]; simpl; [done|].
  intros [Ha Hl]%Forall_cons [Hal Hpairs]. split; [|auto].
  rewrite Forall_forall in *. eauto.
Qed.

(** ** The rewrite of a batch whose spans lie clear of one another *)

Lemma reference_from_snoc (text : str) (ltr : list replacement)
    (s e : Z) (p : str) (cursor stop : Z) :
  reference_from text cursor (ltr ++ [(s, e, p)]) stop
  = reference_from text cursor ltr s ++ p ++ slice text e stop.
Proof.
  revert cursor. induction ltr as [|[[s' e'] p'] ltr IH]; intros cursor.
  - done.
  - simpl. rewrite IH. by rewrite <- !app_assoc.
Qed.

Lemma left_to_right_snoc (ltr : list replacement) (s e : Z) (p : str)
    (cursor stop : Z) :
  left_to_right cursor (ltr ++ [(s, e, p)]) stop
  ↔ left_to_right cursor ltr s ∧ s ≤ e ∧ e ≤ stop.
Proof.
  revert cursor. induction ltr as [|[[s' e'] p'] ltr IH]; intros cursor.
  - simpl. tauto.
  - simpl. rewrite IH. tauto.
Qed.

(** One replacement on a text whose first [c] characters are still those of
    the input, for a span that ends at [c] or before. *)
Lemma substitute_prefix (text tail : str) (s e c : Z) (p : str) :
  0 ≤ s → s ≤ e → e ≤ c → c ≤ len text →
  substitute (slice_to text c ++ tail) (s, e, p)
  = slice_to text s ++ p ++ slice text e c ++ tail.
Proof.
  intros Hs Hse Hec Hc. unfold substitute.
  assert (Hlen : length (slice_to text c) = Z.to_nat c).
  { rewrite slice_to_in_range by lia. rewrite length_take.
    unfold len in Hc. lia. }
  assert (Hlen' : len (slice_to text c ++ tail) = c + len tail).
  { rewrite len_app. unfold len at 1. rewrite Hlen. lia. }
  pose proof (len_nonneg tail).
  rewrite (slice_to_in_range (_ ++ _)), (slice_from_in_range (_ ++ _)) by lia.
  rewrite take_app_le, drop_app_le by lia.
  rewrite (slice_to_in_range text c), (slice_to_in_range text s) by lia.
  rewrite take_take, slice_in_range by lia.
  rewrite take_drop_commute.
  replace (Z.to_nat s `min` Z.to_nat c)%nat with (Z.to_nat s) by lia.
  replace (Z.to_nat e + Z.to_nat (c - e))%nat with (Z.to_nat c) by lia.
  done.
Qed.

Lemma rewrite_loop_cons (r : replacement) (L : list replacement)
    (t : str) :
  rewrite_loop (r :: L) t = rewrite_loop L (substitute t r).
Proof. done. Qed.

Lemma rewrite_loop_chain (text : str) (L : list replacement) :
  StronglySorted ends_before L →
  ∀ (c : Z) (tail : str),
    0 ≤ c ≤ len text →
    Forall (λ r, 0 ≤ r.1.1 ∧ r.1.1 ≤ r.1.2 ∧ r.1.2 ≤ c) L →
    rewrite_loop L (slice_to text c ++ tail)
    = reference_from text 0 (reverse L) c ++ tail
    ∧ left_to_right 0 (reverse L) c.
Proof.
  induction 1 as [|[[s e] p] L HL IH Hr]; intros c tail Hc Hvalid.
  - simpl. split; [|lia]. f_equal.
    rewrite slice_to_in_range, slice_in_range by lia.
    rewrite drop_0. do 2 f_equal. lia.
  - apply Forall_cons in Hvalid as [(Hs & Hse & Hec) Hvalid].
    simpl in Hs, Hse, Hec.
    rewrite rewrite_loop_cons, substitute_prefix by lia.
    destruct (IH s (p ++ slice text e c ++ tail)) as [-> Hltr]; [lia| |].
    { rewrite Forall_forall in *. intros r Hin.
      specialize (Hr r Hin). specialize (Hvalid r Hin).
      unfold ends_before in Hr. simpl in *. lia. }
    rewrite reverse_cons, reference_from_snoc, left_to_right_snoc.
    split; [by rewrite <- !app_assoc|]. split; [done|lia].
Qed.

(** ** The placeholder of an entity *)

Lemma assigned_lookup (m : gmap str str) (entities : list Span.t)
    (i : nat) (ent : Span.t) :
  in_scope_ents m entities !! i = Some ent →
  assigned m entities !! i
  = Some (Span.start_char ent, Span.end_char ent,
          placeholder_of m (in_scope_ents m entities) (Span.text ent)).
Proof. intros Hi. unfold assigned. by rewrite list_lookup_fmap, Hi. Qed.

Lemma in_scope_ents_in_scope (m : gmap str str)
    (entities : list Span.t) (i : nat) (ent : Span.t) :
  in_scope_ents m entities !! i = Some ent → in_scope m ent.
Proof.
  intros Hi%list_elem_of_lookup_2.
  by apply list_elem_of_filter in Hi as [Hin _].
Qed.

(** An entity that no earlier entity shares its text with is the first
    occurrence of that text. *)
Lemma first_occurrence_at (E : list Span.t) (i : nat) (ent : Span.t) :
  first_at E i ent → first_occurrence E (Span.text ent) = Some (i, ent).
Proof.
  intros [Hi Hfirst]. apply list_find_Some. split_and!; [done..|].
  intros j e Hj Hlt. by apply Hfirst with j.
Qed.

Lemma first_at_head (ent : Span.t) (E : list Span.t) :
  first_at (ent :: E) 0 ent.
Proof. split; [done|]. intros j e Hj. lia. Qed.

Lemma ordinal_first (E : list Span.t) (i : nat) (ent : Span.t) :
  first_at E i ent → ordinal E (Span.text ent) = S (seen_before E i).
Proof.
  intros Hfirst. unfold ordinal. by rewrite (first_occurrence_at E i ent).
Qed.

Lemma placeholder_of_first (m : gmap str str) (E : list Span.t)
    (i : nat) (ent : Span.t) (w : str) :
  first_at E i ent →
  m !! Span.label_ ent = Some w →
  placeholder_of m E (Span.text ent) = fstring w (S (seen_before E i)).
Proof.
  intros Hfirst Hw. unfold placeholder_of, word.
  rewrite (ordinal_first E i ent) by done.
  rewrite (first_occurrence_at E i ent) by done. by rewrite Hw.
Qed.

(** A text that occurs first gets the smaller ordinal. *)
Lemma ordinal_lt (E : list Span.t) (x y : str) (i j : nat) (ex ey : Span.t) :
  first_occurrence E x = Some (i, ex) →
  first_occurrence E y = Some (j, ey) →
  (i < j)%nat → (ordinal E x < ordinal E y)%nat.
Proof.
  intros Hx Hy Hlt. unfold ordinal, seen_before. rewrite Hx, Hy.
  apply list_find_Some in Hx as (Hi & Htx & Hminx).
  apply list_find_Some in Hy as (Hj & Hty & Hminy).
  apply -> Nat.succ_lt_mono. apply distinct_grows with x.
  - intros z (e & -> & He)%list_elem_of_fmap. apply list_elem_of_fmap.
    exists e. split; [done|].
    apply list_elem_of_lookup in He as [k Hk].
    apply lookup_take_Some in Hk as [Hk Hki].
    apply list_elem_of_lookup. exists k. apply lookup_take_Some.
    split; [done|lia].
  - apply list_elem_of_fmap. exists ex. split; [done|].
    apply list_elem_of_lookup. exists i. by apply lookup_take_Some.
  - intros (e & Hte & He)%list_elem_of_fmap.
    apply list_elem_of_lookup in He as [k Hk].
    apply lookup_take_Some in Hk as [Hk Hki].
    by apply (Hminx k e).
Qed.

Lemma ordinal_inj (E : list Span.t) (x y : str) :
  x ∈ Span.text <$> E → y ∈ Span.text <$> E →
  ordinal E x = ordinal E y → x = y.
Proof.
  intros (i & ex & Hx & Hi & Htx & _)%first_occurrence_Some
         (j & ey & Hy & Hj & Hty & _)%first_occurrence_Some Heq.
  destruct (Nat.lt_total i j) as [Hlt|[->|Hlt]].
  - pose proof (ordinal_lt E x y i j ex ey Hx Hy Hlt). lia.
  - congruence.
  - pose proof (ordinal_lt E y x j i ey ex Hy Hx Hlt). lia.
Qed.

Lemma placeholder_of_inj (m : gmap str str) (E : list Span.t)
    (x y : str) :
  x ∈ Span.text <$> E → y ∈ Span.text <$> E →
  placeholder_of m E x = placeholder_of m E y → x = y.
Proof.
  intros Hx Hy [_ Hord]%fstring_inj. by apply ordinal_inj with E.
Qed.

(** ** [anonymize_text] and its body *)

Lemma anonymize_text_body (text : str) (nlp : Language) :
  anonymize_text text nlp
  = anonymize text (ents (pipe nlp text)) (placeholder_mapping nlp).
Proof. done. Qed.

(** ** Validation *)

(** C1, as stated, fails: on ["hello"] with the span [(3, 1, PERSON)], whose
    start exceeds its end, [anonymize_text] raises nothing and returns the
    rewritten text ["helperson_1ello"]. *)
Lemma anonymize_text_invalid_span_returns :
  Exists (invalid_span (lit "hello"))
    (ents (pipe (detector (lit "en") [(3, 1, lit "PERSON")]) (lit "hello")))
  ∧ anonymize_text (lit "hello") (detector (lit "en") [(3, 1, lit "PERSON")])
    = Return (lit "helperson_1ello")
  ∧ ¬ ∃ e, anonymize_text (lit "hello")
             (detector (lit "en") [(3, 1, lit "PERSON")]) = Raise e.
Proof.
  split_and!.
  - apply Exists_cons_hd. left. simpl. lia.
  - vm_compute. reflexivity.
  - intros [e He]. vm_compute in He. discriminate.
Qed.

(** C1, amended: [anonymize_text] validates no span and never fails.  For
    every text and every batch, whatever the offsets of its spans, it returns
    the text obtained by applying the replacement of each in-scope entity,
    [text[:start] + placeholder + text[end:]], in descending order of start,
    the slices clipping offsets that fall outside the text. *)
Theorem anonymize_text_never_raises (text : str) (nlp : Language) :
  anonymize_text text nlp
  = Return (rewrite_loop
              (sorted_reverse
                 (assigned (placeholder_mapping nlp) (ents (pipe nlp text))))
              text).
Proof. rewrite anonymize_text_body. apply anonymize_assigned. Qed.

(** ** Identity on an empty entity list *)

(** C7: with an empty entity list the text is returned as it is. *)
Theorem anonymize_text_no_entities (text : str) (nlp : Language) :
  ents (pipe nlp text) = [] → anonymize_text text nlp = Return text.
Proof. intros Hents. rewrite anonymize_text_body. by rewrite Hents. Qed.

Lemma anonymize_text_no_entities_witness :
  anonymize_text (lit "Alice met Bob.") (detector (lit "en") [])
  = Return (lit "Alice met Bob.").
Proof.
  apply (anonymize_text_no_entities (lit "Alice met Bob.")
           (detector (lit "en") [])).
  reflexivity.
Defined.

(** ** The end-to-end example *)

(** C5: ["Alice met Bob. Alice left."] with the three PERSON spans becomes
    ["person_1 met person_2. person_1 left."], under the English words of
    [anonymize_text] and under the mapping that has PERSON alone. *)
Theorem anonymize_alice_bob :
  anonymize_text (lit "Alice met Bob. Alice left.")
    (detector (lit "en")
       [(0, 5, lit "PERSON"); (10, 13, lit "PERSON"); (15, 20, lit "PERSON")])
  = Return (lit "person_1 met person_2. person_1 left.")
  ∧ anonymize (lit "Alice met Bob. Alice left.")
      (detected (lit "Alice met Bob. Alice left.") <$>
         [(0, 5, lit "PERSON"); (10, 13, lit "PERSON");
          (15, 20, lit "PERSON")])
      {[ lit "PERSON" := lit "person" ]}
    = Return (lit "person_1 met person_2. person_1 left.").
Proof. split; vm_compute; reflexivity. Qed.

(** ** Consistent identity *)

(** C3: two in-scope entities whose matched substrings are equal get the same
    placeholder in [replacements]. *)
Theorem same_substring_same_placeholder (text : str)
    (entities : list Span.t) (m : gmap str str)
    (i j : nat) (ei ej : Span.t) :
  in_scope_ents m entities !! i = Some ei →
  in_scope_ents m entities !! j = Some ej →
  matched text ei → matched text ej →
  slice text (Span.start_char ei) (Span.end_char ei)
  = slice text (Span.start_char ej) (Span.end_char ej) →
  ∃ placeholder_counter replacements placeholder,
    assign_loop m entities (∅, [])
    = Return (placeholder_counter, replacements)
    ∧ replacements !! i
      = Some (Span.start_char ei, Span.end_char ei, placeholder)
    ∧ replacements !! j
      = Some (Span.start_char ej, Span.end_char ej, placeholder).
Proof.
  intros Hi Hj Hmi Hmj Heq.
  destruct (assign_loop_assigned m entities) as [c Hrun].
  exists c, (assigned m entities),
    (placeholder_of m (in_scope_ents m entities) (Span.text ei)).
  split_and!; [done|by apply assigned_lookup|].
  rewrite (assigned_lookup m entities j ej) by done.
  unfold matched in *. by rewrite Hmi, Heq, <- Hmj.
Qed.

Lemma same_substring_same_placeholder_witness :
  ∃ placeholder_counter replacements placeholder,
    assign_loop person_only (detected alice <$> alice_spans) (∅, [])
    = Return (placeholder_counter, replacements)
    ∧ replacements !! 0%nat = Some (0, 5, placeholder)
    ∧ replacements !! 2%nat = Some (15, 20, placeholder).
Proof.
  apply (same_substring_same_placeholder alice
           (detected alice <$> alice_spans) person_only 0 2
           (detected alice (0, 5, lit "PERSON"))
           (detected alice (15, 20, lit "PERSON")));
    vm_compute; reflexivity.
Defined.

(** ** Distinctness and numbering *)

(** C4, as stated, fails: the numbers follow the order of the batch, not the
    order of the text.  On ["Alice met Bob"] with the spans [(10, 13, PERSON)]
    and [(0, 5, PERSON)], listed in that order, valid and apart, ["Bob"] is
    met first and gets [person_1], and ["Alice"], the first substring from
    the left, gets [person_2]: the result is ["person_2 met person_1"]. *)
Lemma leftmost_text_numbered_second :
  Forall (valid_span (lit "Alice met Bob"))
    (detected (lit "Alice met Bob") <$> bob_then_alice)
  ∧ pairwise non_overlapping
      (detected (lit "Alice met Bob") <$> bob_then_alice)
  ∧ anonymize_text (lit "Alice met Bob")
      (detector (lit "en") [(10, 13, lit "PERSON"); (0, 5, lit "PERSON")])
    = Return (lit "person_2 met person_1")
  ∧ (∃ placeholder_counter,
       assign_loop english_words
         (detected (lit "Alice met Bob") <$> bob_then_alice) (∅, [])
       = Return (placeholder_counter,
                 [(10, 13, lit "person_1"); (0, 5, lit "person_2")]))
  ∧ ¬ ∀ i j ei ej,
        first_at
          (in_scope_ents english_words
             (detected (lit "Alice met Bob") <$> bob_then_alice)) i ei →
        first_at
          (in_scope_ents english_words
             (detected (lit "Alice met Bob") <$> bob_then_alice)) j ej →
        Span.start_char ei < Span.start_char ej →
        (seen_before
           (in_scope_ents english_words
              (detected (lit "Alice met Bob") <$> bob_then_alice)) i
         < seen_before
             (in_scope_ents english_words
                (detected (lit "Alice met Bob") <$> bob_then_alice)) j)%nat.
Proof.
  split_and!.
  - repeat constructor; vm_compute; discriminate.
  - split; [|split; [constructor|exact I]].
    constructor; [|constructor]. right. simpl. lia.
  - vm_compute. reflexivity.
  - eexists. vm_compute. reflexivity.
  - intros Hltr.
    specialize (Hltr 1%nat 0%nat
                  (detected (lit "Alice met Bob") (0, 5, lit "PERSON"))
                  (detected (lit "Alice met Bob") (10, 13, lit "PERSON"))).
    enough (seen_before
              (in_scope_ents english_words
                 (detected (lit "Alice met Bob") <$> bob_then_alice)) 1
            < 0)%nat by lia.
    apply Hltr.
    + split; [vm_compute; reflexivity|]. intros [|k] e Hk He; [|lia].
      vm_compute in He. injection He as <-. vm_compute. discriminate.
    + split; [vm_compute; reflexivity|]. intros k e Hk. lia.
    + vm_compute. reflexivity.
Qed.

(** C4, amended: the first loop gives every in-scope entity a placeholder
    [<word>_<ordinal>].  An entity whose text is met for the first time gets
    the word of its own label and, as ordinal, one more than the number of
    distinct texts met before it in the batch: the count starts at 1 and
    grows by one per new text, not per occurrence.  The ordinals follow the
    order of first occurrence in the batch, exactly; they follow the order
    from left to right when the batch is listed so.  An entity whose text
    was met before gets the placeholder of that text again, and entities
    with different texts, of the same label or not, get different
    placeholders. *)
Theorem placeholders_numbered (entities : list Span.t)
    (m : gmap str str) :
  ∃ placeholder_counter replacements,
    assign_loop m entities (∅, [])
    = Return (placeholder_counter, replacements)
    ∧ length replacements = length (in_scope_ents m entities)
    ∧ (∀ i ent,
         first_at (in_scope_ents m entities) i ent →
         ∃ w, m !! Span.label_ ent = Some w
              ∧ replacements !! i
                = Some (Span.start_char ent, Span.end_char ent,
                        fstring w
                          (S (seen_before (in_scope_ents m entities) i))))
    ∧ seen_before (in_scope_ents m entities) 0 = 0%nat
    ∧ (∀ i j ei ej,
         first_at (in_scope_ents m entities) i ei →
         first_at (in_scope_ents m entities) j ej →
         ((i < j)%nat
          ↔ (seen_before (in_scope_ents m entities) i
             < seen_before (in_scope_ents m entities) j)%nat))
    ∧ (listed_left_to_right (in_scope_ents m entities) →
       ∀ i j ei ej,
         first_at (in_scope_ents m entities) i ei →
         first_at (in_scope_ents m entities) j ej →
         Span.start_char ei < Span.start_char ej →
         (seen_before (in_scope_ents m entities) i
          < seen_before (in_scope_ents m entities) j)%nat)
    ∧ (∀ i j ei ej,
         in_scope_ents m entities !! i = Some ei →
         in_scope_ents m entities !! j = Some ej →
         ∃ pi pj,
           replacements !! i
           = Some (Span.start_char ei, Span.end_char ei, pi)
           ∧ replacements !! j
             = Some (Span.start_char ej, Span.end_char ej, pj)
           ∧ (Span.text ei = Span.text ej → pi = pj)
           ∧ (Span.text ei ≠ Span.text ej → pi ≠ pj)).
Proof.
  destruct (assign_loop_assigned m entities) as [c Hrun].
  assert (Hbatch : ∀ i j ei ej,
    first_at (in_scope_ents m entities) i ei →
    first_at (in_scope_ents m entities) j ej →
    (i < j)%nat →
    (seen_before (in_scope_ents m entities) i
     < seen_before (in_scope_ents m entities) j)%nat).
  { intros i j ei ej Hi Hj Hlt.
    pose proof (ordinal_lt _ _ _ i j ei ej
                  (first_occurrence_at _ _ _ Hi)
                  (first_occurrence_at _ _ _ Hj) Hlt) as Hord.
    rewrite (ordinal_first _ i ei), (ordinal_first _ j ej) in Hord by done.
    lia. }
  exists c, (assigned m entities). split_and!; [done| | |done| | |].
  - unfold assigned. by rewrite length_fmap.
  - intros i ent Hfirst.
    destruct (in_scope_ents_in_scope m entities i ent) as [w Hw];
      [apply Hfirst|].
    exists w. split; [done|].
    rewrite (assigned_lookup m entities i ent) by apply Hfirst.
    by rewrite (placeholder_of_first m _ i ent w).
  - intros i j ei ej Hi Hj. split; [by apply (Hbatch i j ei ej)|].
    intros Hseen. destruct (Nat.lt_total i j) as [Hlt|[->|Hgt]]; [done|lia|].
    pose proof (Hbatch j i ej ei Hj Hi Hgt). lia.
  - intros Hltr i j ei ej Hi Hj Hstart. apply (Hbatch i j ei ej); [done..|].
    destruct (Nat.lt_total i j) as [Hlt|[->|Hgt]]; [done| |].
    + destruct Hi as [Hi _], Hj as [Hj _].
      rewrite Hi in Hj. injection Hj as ->. lia.
    + pose proof (Hltr j i ej ei Hgt (proj1 Hj) (proj1 Hi)). lia.
  - intros i j ei ej Hi Hj. do 2 eexists.
    split_and!; [by apply assigned_lookup..| |].
    + by intros ->.
    + intros Hne Heq. apply Hne.
      apply (placeholder_of_inj m (in_scope_ents m entities)); [..|done];
        apply list_elem_of_fmap; eauto using list_elem_of_lookup_2.
Qed.

Lemma placeholders_numbered_witness :
  ∃ placeholder_counter replacements,
    assign_loop person_only (detected alice <$> alice_spans) (∅, [])
    = Return (placeholder_counter, replacements)
    ∧ replacements !! 0%nat = Some (0, 5, fstring (lit "person") 1)
    ∧ replacements !! 1%nat = Some (10, 13, fstring (lit "person") 2)
    ∧ (seen_before
         (in_scope_ents person_only (detected alice <$> alice_spans)) 0
       < seen_before
           (in_scope_ents person_only (detected alice <$> alice_spans)) 1)%nat.
Proof.
  destruct (placeholders_numbered (detected alice <$> alice_spans)
              person_only)
    as (c & rs & Hrun & _ & Hfirst & _ & _ & Hltr & _).
  assert (H0 : first_at
                 (in_scope_ents person_only (detected alice <$> alice_spans))
                 0 (detected alice (0, 5, lit "PERSON"))).
  { split; [vm_compute; reflexivity|]. intros k e Hk. lia. }
  assert (H1 : first_at
                 (in_scope_ents person_only (detected alice <$> alice_spans))
                 1 (detected alice (10, 13, lit "PERSON"))).
  { split; [vm_compute; reflexivity|]. intros [|k] e Hk He; [|lia].
    vm_compute in He. injection He as <-. vm_compute. discriminate. }
  exists c, rs. split_and!.
  - exact Hrun.
  - destruct (Hfirst 0%nat _ H0) as (w & Hw & Hr).
    vm_compute in Hw. injection Hw as <-. exact Hr.
  - destruct (Hfirst 1%nat _ H1) as (w & Hw & Hr).
    vm_compute in Hw. injection Hw as <-. exact Hr.
  - apply (Hltr) with (ei := detected alice (0, 5, lit "PERSON"))
                      (ej := detected alice (10, 13, lit "PERSON"));
      [|exact H0|exact H1|vm_compute; reflexivity].
    intros i j ei ej Hij Hi Hj.
    destruct i as [|[|[|i]]], j as [|[|[|j]]];
      vm_compute in Hi, Hj; simplify_eq; try lia; vm_compute; discriminate.
Defined.

(** ** Placeholders are keyed by the text alone *)

(** C10: when a text first occurs under one in-scope label and occurs again,
    under whatever in-scope label, both occurrences get the one placeholder
    made at the first occurrence, with the word of the first label; a
    different word of the later label appears in no placeholder of that
    text. *)
Theorem placeholder_keyed_by_text (entities : list Span.t)
    (m : gmap str str) (i j : nat) (ei ej : Span.t) (wi : str) :
  first_at (in_scope_ents m entities) i ei →
  in_scope_ents m entities !! j = Some ej →
  Span.text ej = Span.text ei →
  m !! Span.label_ ei = Some wi →
  ∃ placeholder_counter replacements n,
    assign_loop m entities (∅, [])
    = Return (placeholder_counter, replacements)
    ∧ replacements !! i
      = Some (Span.start_char ei, Span.end_char ei, fstring wi n)
    ∧ replacements !! j
      = Some (Span.start_char ej, Span.end_char ej, fstring wi n)
    ∧ (∀ wj n', m !! Span.label_ ej = Some wj → wj ≠ wi →
                fstring wi n ≠ fstring wj n').
Proof.
  intros Hfirst Hj Heq Hwi.
  destruct (assign_loop_assigned m entities) as [c Hrun].
  exists c, (assigned m entities),
    (S (seen_before (in_scope_ents m entities) i)).
  pose proof (placeholder_of_first m _ i ei wi Hfirst Hwi) as Hph.
  split_and!; [done| | |].
  - by rewrite (assigned_lookup m entities i ei), Hph by apply Hfirst.
  - by rewrite (assigned_lookup m entities j ej), Heq, Hph.
  - intros wj n' _ Hne [Hw _]%fstring_inj. by apply Hne.
Qed.

Lemma placeholder_keyed_by_text_witness :
  ∃ placeholder_counter replacements n,
    assign_loop
      (placeholder_mapping (detector (lit "en") []))
      (detected (lit "Paris met Paris") <$>
         [(0, 5, lit "GPE"); (10, 15, lit "PERSON")]) (∅, [])
    = Return (placeholder_counter, replacements)
    ∧ replacements !! 0%nat = Some (0, 5, fstring (lit "location") n)
    ∧ replacements !! 1%nat = Some (10, 15, fstring (lit "location") n)
    ∧ (∀ wj n',
         placeholder_mapping (detector (lit "en") []) !! lit "PERSON"
         = Some wj →
         wj ≠ lit "location" →
         fstring (lit "location") n ≠ fstring wj n').
Proof.
  apply (placeholder_keyed_by_text
           (detected (lit "Paris met Paris") <$>
              [(0, 5, lit "GPE"); (10, 15, lit "PERSON")])
           (placeholder_mapping (detector (lit "en") [])) 0 1
           (detected (lit "Paris met Paris") (0, 5, lit "GPE"))
           (detected (lit "Paris met Paris") (10, 15, lit "PERSON"))
           (lit "location")).
  - split; [vm_compute; reflexivity|]. intros k e Hk. lia.
  - vm_compute. reflexivity.
  - vm_compute. reflexivity.
  - vm_compute. reflexivity.
Defined.

(** ** Right-to-left application *)

Lemma assigned_valid (text : str) (m : gmap str str)
    (entities : list Span.t) :
  Forall (valid_span text) (in_scope_ents m entities) →
  Forall (λ r, 0 ≤ r.1.1 ∧ r.1.1 ≤ r.1.2 ∧ r.1.2 ≤ len text)
    (assigned m entities).
Proof.
  intros Hvalid. unfold assigned. apply Forall_fmap.
  eapply Forall_impl; [exact Hvalid|]. by intros ent (? & ? & ?).
Qed.

Lemma assigned_clear (text : str) (m : gmap str str)
    (entities : list Span.t) :
  Forall (valid_span text) (in_scope_ents m entities) →
  pairwise (λ a b, non_overlapping a b ∧ ¬ empty_at_start_of a b)
    (in_scope_ents m entities) →
  pairwise clear_of (assigned m entities).
Proof.
  intros Hvalid Hpairs. unfold assigned. apply pairwise_fmap.
  eapply pairwise_impl; [|exact Hvalid|exact Hpairs].
  intros a b (Ha0 & Ha & Ha1) (Hb0 & Hb & Hb1) [Hno Htie].
  unfold clear_of, non_overlapping, empty_at_start_of in *. simpl. lia.
Qed.

Lemma rewrite_loop_app (l1 l2 : list replacement) (t : str) :
  rewrite_loop (l1 ++ l2) t = rewrite_loop l2 (rewrite_loop l1 t).
Proof. unfold rewrite_loop. apply foldl_app. Qed.

(** While the spans lie clear of one another, the text rewritten so far
    still agrees with the input up to the end of every span yet to apply. *)
Lemma rewrite_loop_keeps_prefix (text : str)
    (applied rest : list replacement) :
  StronglySorted ends_before (applied ++ rest) →
  Forall (λ r, 0 ≤ r.1.1 ∧ r.1.1 ≤ r.1.2 ∧ r.1.2 ≤ len text)
    (applied ++ rest) →
  ∀ r, r ∈ rest →
    take (Z.to_nat r.1.2) (rewrite_loop applied text)
    = take (Z.to_nat r.1.2) text.
Proof.
  revert rest. induction applied as [|[[s e] p] applied IH] using rev_ind;
    intros rest Hsorted Hvalid r Hr; [done|].
  rewrite <- app_assoc in Hsorted, Hvalid. simpl in Hsorted, Hvalid.
  rewrite rewrite_loop_app. simpl.
  set (T := rewrite_loop applied text).
  assert (Hd : take (Z.to_nat e) T = take (Z.to_nat e) text).
  { apply (IH _ Hsorted Hvalid (s, e, p)). by left. }
  assert (Hrest : take (Z.to_nat r.1.2) T = take (Z.to_nat r.1.2) text).
  { apply (IH _ Hsorted Hvalid r). by right. }
  apply StronglySorted_app_1_r in Hsorted.
  apply StronglySorted_inv in Hsorted as [_ Hends].
  apply Forall_app in Hvalid as [_ Hvalid].
  apply Forall_cons in Hvalid as [(Hs & Hse & He) Hvalid].
  rewrite Forall_forall in Hends, Hvalid.
  specialize (Hends r Hr). specialize (Hvalid r Hr).
  unfold ends_before in Hends. simpl in *.
  assert (HlenT : e ≤ len T).
  { apply (f_equal length) in Hd. rewrite !length_take in Hd.
    unfold len in *. lia. }
  rewrite slice_to_in_range by lia.
  rewrite take_app_le by (rewrite length_take; unfold len in *; lia).
  rewrite take_take.
  replace (Z.to_nat r.1.2 `min` Z.to_nat s)%nat with (Z.to_nat r.1.2) by lia.
  done.
Qed.

Lemma text_as_prefix (text : str) : text = slice_to text (len text) ++ [].
Proof.
  rewrite app_nil_r, slice_to_in_range by (pose proof (len_nonneg text); lia).
  symmetry. apply take_ge. unfold len. lia.
Qed.

(** The batch after the sort, when its in-scope spans are valid and lie
    clear of one another: a chain from right to left, whose rewrite is the
    reference rewrite of its reverse. *)
Lemma anonymize_chain (text : str) (entities : list Span.t)
    (m : gmap str str) :
  Forall (valid_span text) (in_scope_ents m entities) →
  pairwise (λ a b, non_overlapping a b ∧ ¬ empty_at_start_of a b)
    (in_scope_ents m entities) →
  StronglySorted ends_before (sorted_reverse (assigned m entities))
  ∧ Forall (λ r, 0 ≤ r.1.1 ∧ r.1.1 ≤ r.1.2 ∧ r.1.2 ≤ len text)
      (sorted_reverse (assigned m entities))
  ∧ left_to_right 0 (reverse (sorted_reverse (assigned m entities)))
      (len text)
  ∧ anonymize text entities m
    = Return (reference_rewrite text
                (reverse (sorted_reverse (assigned m entities)))).
Proof.
  intros Hvalid Hpairs.
  pose proof (assigned_valid text m entities Hvalid) as Hv.
  pose proof (assigned_clear text m entities Hvalid Hpairs) as Hclear.
  set (order := sorted_reverse (assigned m entities)).
  assert (Hchain : StronglySorted ends_before order).
  { apply sorted_reverse_chain; [|done].
    eapply Forall_impl; [exact Hv|]. intros r. simpl. lia. }
  assert (Hvo : Forall (λ r, 0 ≤ r.1.1 ∧ r.1.1 ≤ r.1.2 ∧ r.1.2 ≤ len text)
                  order) by (by apply Forall_sorted_reverse).
  pose proof (len_nonneg text) as Hlen.
  destruct (rewrite_loop_chain text order Hchain (len text) [])
    as [Hout Hltr]; [lia|done|].
  rewrite <- text_as_prefix, app_nil_r in Hout.
  split_and!; [done..|].
  rewrite anonymize_assigned. fold order. by rewrite Hout.
Qed.

(** C6, as stated, fails: on ["abcdefgh"] with the spans [(2, 2, PERSON)] and
    [(2, 5, PERSON)], valid and sharing no position, the zero-length span is
    applied first (equal starts keep the batch order) and shifts the text the
    other span then cuts: the result is ["abperson_2son_1cdefgh"], which is
    the reference rewrite of no left-to-right arrangement. *)
Lemma right_to_left_breaks_on_tie :
  Forall (valid_span (lit "abcdefgh"))
    (detected (lit "abcdefgh") <$>
       [(2, 2, lit "PERSON"); (2, 5, lit "PERSON")])
  ∧ pairwise non_overlapping
      (detected (lit "abcdefgh") <$>
         [(2, 2, lit "PERSON"); (2, 5, lit "PERSON")])
  ∧ anonymize_text (lit "abcdefgh")
      (detector (lit "en") [(2, 2, lit "PERSON"); (2, 5, lit "PERSON")])
    = Return (lit "abperson_2son_1cdefgh")
  ∧ slice (substitute (lit "abcdefgh") (2, 2, lit "person_1")) 2 5
    ≠ slice (lit "abcdefgh") 2 5
  ∧ ¬ ∃ ltr,
        ltr ≡ₚ assigned (placeholder_mapping (detector (lit "en") []))
                 (detected (lit "abcdefgh") <$>
                    [(2, 2, lit "PERSON"); (2, 5, lit "PERSON")])
        ∧ left_to_right 0 ltr (len (lit "abcdefgh"))
        ∧ anonymize_text (lit "abcdefgh")
            (detector (lit "en")
               [(2, 2, lit "PERSON"); (2, 5, lit "PERSON")])
          = Return (reference_rewrite (lit "abcdefgh") ltr).
Proof.
  split_and!.
  - repeat constructor; vm_compute; discriminate.
  - split; [|split; [constructor|exact I]].
    constructor; [|constructor]. left. simpl. lia.
  - vm_compute. reflexivity.
  - vm_compute. discriminate.
  - intros (ltr & Hperm & Hltr & Hout).
    vm_compute in Hperm. symmetry in Hperm.
    apply Permutation_length_2_inv in Hperm as [-> | ->].
    + vm_compute in Hout. discriminate.
    + simpl in Hltr. lia.
Qed.

(** C6, amended: the substitutions are applied in descending order of
    start.  For every batch whose in-scope spans are valid, do not overlap
    and have no zero-length span listed before a non-empty span that starts
    at the same offset, every span yet to apply still selects in the partly
    rewritten text the characters it selects in the input, and the result is
    the reference rewrite of the assigned replacements laid out from left to
    right. *)
Theorem right_to_left_is_reference (text : str) (entities : list Span.t)
    (m : gmap str str) :
  ∃ order,
    order ≡ₚ assigned m entities
    ∧ StronglySorted starts_descend order
    ∧ anonymize text entities m = Return (rewrite_loop order text)
    ∧ (Forall (valid_span text) (in_scope_ents m entities) →
       pairwise (λ a b, non_overlapping a b ∧ ¬ empty_at_start_of a b)
         (in_scope_ents m entities) →
       (∀ applied rest r,
          order = applied ++ rest → r ∈ rest →
          slice (rewrite_loop applied text) r.1.1 r.1.2
          = slice text r.1.1 r.1.2)
       ∧ ∃ ltr,
           ltr ≡ₚ assigned m entities
           ∧ left_to_right 0 ltr (len text)
           ∧ anonymize text entities m
             = Return (reference_rewrite text ltr)).
Proof.
  exists (sorted_reverse (assigned m entities)).
  split_and!;
    [apply sorted_reverse_perm|apply sorted_reverse_sorted
    |apply anonymize_assigned|].
  intros Hvalid Hpairs.
  destruct (anonymize_chain text entities m Hvalid Hpairs)
    as (Hchain & Hvo & Hltr & Hout).
  split.
  - intros applied rest r Horder Hr. rewrite Horder in Hchain, Hvo.
    pose proof (rewrite_loop_keeps_prefix text applied rest Hchain Hvo r Hr)
      as Hkeep.
    rewrite Forall_forall in Hvo.
    destruct (Hvo r) as (Hs & Hse & He);
      [apply elem_of_app; by right|].
    assert (HlenT : r.1.2 ≤ len (rewrite_loop applied text)).
    { apply (f_equal length) in Hkeep. rewrite !length_take in Hkeep.
      unfold len in *. lia. }
    rewrite !slice_in_range by lia.
    rewrite !take_drop_commute.
    replace (Z.to_nat r.1.1 + Z.to_nat (r.1.2 - r.1.1))%nat
      with (Z.to_nat r.1.2) by lia.
    by rewrite Hkeep.
  - exists (reverse (sorted_reverse (assigned m entities))).
    split_and!; [|done..].
    rewrite reverse_Permutation. apply sorted_reverse_perm.
Qed.

Lemma right_to_left_is_reference_witness :
  ∃ order,
    StronglySorted starts_descend order
    ∧ anonymize alice (detected alice <$> alice_spans) person_only
      = Return (rewrite_loop order alice)
    ∧ (∀ applied rest r,
         order = applied ++ rest → r ∈ rest →
         slice (rewrite_loop applied alice) r.1.1 r.1.2
         = slice alice r.1.1 r.1.2)
    ∧ ∃ ltr,
        ltr ≡ₚ assigned person_only (detected alice <$> alice_spans)
        ∧ left_to_right 0 ltr (len alice)
        ∧ anonymize alice (detected alice <$> alice_spans) person_only
          = Return (reference_rewrite alice ltr).
Proof.
  destruct (right_to_left_is_reference alice
              (detected alice <$> alice_spans) person_only)
    as (order & _ & Hsorted & Hout & Hchain).
  exists order. split_and!; [done..| |]; apply Hchain; crunch_spans.
Defined.

(** ** Zero-length spans *)

Lemma reference_from_app (text : str) (l1 l2 : list replacement)
    (s e : Z) (p : str) (cursor stop : Z) :
  reference_from text cursor (l1 ++ (s, e, p) :: l2) stop
  = reference_from text cursor l1 s ++ p ++ reference_from text e l2 stop.
Proof.
  revert cursor. induction l1 as [|[[s' e'] p'] l1 IH]; intros cursor.
  - done.
  - simpl. rewrite IH. by rewrite <- !app_assoc.
Qed.

Lemma left_to_right_app (l1 l2 : list replacement) (s e : Z) (p : str)
    (cursor stop : Z) :
  left_to_right cursor (l1 ++ (s, e, p) :: l2) stop
  ↔ left_to_right cursor l1 s ∧ s ≤ e ∧ left_to_right e l2 stop.
Proof.
  revert cursor. induction l1 as [|[[s' e'] p'] l1 IH]; intros cursor.
  - simpl. tauto.
  - simpl. rewrite IH. tauto.
Qed.

(** C8, as stated, fails: on ["AB"] with the spans [(1, 1, PERSON)] and
    [(1, 2, PERSON)], valid and sharing no position, the zero-length span
    gets [person_1], which is inserted first and then cut by the replacement
    of the other span: the result is ["Aperson_2erson_1B"], in which
    [person_1] does not stand.  The operation does not raise, but the
    zero-length span is not a pure insertion of its placeholder. *)
Lemma zero_length_span_overwritten :
  Forall (valid_span (lit "AB"))
    (detected (lit "AB") <$> [(1, 1, lit "PERSON"); (1, 2, lit "PERSON")])
  ∧ pairwise non_overlapping
      (detected (lit "AB") <$> [(1, 1, lit "PERSON"); (1, 2, lit "PERSON")])
  ∧ (∃ placeholder_counter,
       assign_loop english_words
         (detected (lit "AB") <$>
            [(1, 1, lit "PERSON"); (1, 2, lit "PERSON")]) (∅, [])
       = Return (placeholder_counter,
                 [(1, 1, lit "person_1"); (1, 2, lit "person_2")]))
  ∧ anonymize_text (lit "AB")
      (detector (lit "en") [(1, 1, lit "PERSON"); (1, 2, lit "PERSON")])
    = Return (lit "Aperson_2erson_1B")
  ∧ ¬ ∃ X Y, lit "Aperson_2erson_1B" = X ++ lit "person_1" ++ Y.
Proof.
  split_and!.
  - repeat constructor; vm_compute; discriminate.
  - split; [|split; [constructor|exact I]].
    constructor; [|constructor]. left. simpl. lia.
  - eexists. vm_compute. reflexivity.
  - vm_compute. reflexivity.
  - intros (X & Y & Heq).
    apply (f_equal (λ l, take 8 (drop (length X) l))) in Heq.
    rewrite drop_app_length, take_app_length' in Heq by reflexivity.
    revert Heq. generalize (length X). intros n.
    do 18 (destruct n as [|n]; [vm_compute; discriminate|]).
    vm_compute. discriminate.
Qed.

(** C8, amended: a zero-length span within bounds makes no batch raise, and
    its replacement step deletes nothing and inserts the placeholder at the
    span's offset.  In every batch whose in-scope spans are valid, do not
    overlap and have no zero-length span listed before a non-empty span that
    starts at the same offset, it is a pure insertion: the result is the
    rewrite of the text before the offset, then the placeholder of the span,
    then the rewrite of the text from the offset on.  Alone in a batch, it
    turns the text into the text with [<word>_1] inserted there, and ["AB"]
    with the span [(1, 1, PERSON)] becomes ["Aperson_1B"]. *)
Theorem zero_length_span_inserts (text : str) (m : gmap str str)
    (ent : Span.t) (w : str) :
  m !! Span.label_ ent = Some w →
  Span.end_char ent = Span.start_char ent →
  0 ≤ Span.start_char ent ≤ len text →
  (∀ entities, ent ∈ entities →
     ∃ out, anonymize text entities m = Return out)
  ∧ (∀ p, substitute text (Span.start_char ent, Span.end_char ent, p)
          = take (Z.to_nat (Span.start_char ent)) text ++ p
              ++ drop (Z.to_nat (Span.start_char ent)) text)
  ∧ (∀ entities i,
       in_scope_ents m entities !! i = Some ent →
       Forall (valid_span text) (in_scope_ents m entities) →
       pairwise (λ a b, non_overlapping a b ∧ ¬ empty_at_start_of a b)
         (in_scope_ents m entities) →
       ∃ placeholder_counter replacements p before after,
         assign_loop m entities (∅, [])
         = Return (placeholder_counter, replacements)
         ∧ replacements !! i
           = Some (Span.start_char ent, Span.end_char ent, p)
         ∧ before ++ (Span.start_char ent, Span.end_char ent, p) :: after
           ≡ₚ replacements
         ∧ left_to_right 0 before (Span.start_char ent)
         ∧ left_to_right (Span.start_char ent) after (len text)
         ∧ anonymize text entities m
           = Return (reference_from text 0 before (Span.start_char ent)
                       ++ p
                       ++ reference_from text (Span.start_char ent) after
                            (len text)))
  ∧ anonymize text [ent] m
    = Return (take (Z.to_nat (Span.start_char ent)) text ++ fstring w 1
                ++ drop (Z.to_nat (Span.start_char ent)) text)
  ∧ anonymize_text (lit "AB") (detector (lit "en") [(1, 1, lit "PERSON")])
    = Return (lit "Aperson_1B").
Proof.
  intros Hw Hend Hs.
  assert (Hstep : ∀ p,
    substitute text (Span.start_char ent, Span.end_char ent, p)
    = take (Z.to_nat (Span.start_char ent)) text ++ p
        ++ drop (Z.to_nat (Span.start_char ent)) text).
  { intros p. unfold substitute. rewrite Hend.
    by rewrite slice_to_in_range, slice_from_in_range. }
  split_and!; [|done| | |vm_compute; reflexivity].
  - intros entities _. rewrite anonymize_assigned. by eexists.
  - intros entities i Hi Hvalid Hpairs.
    destruct (assign_loop_assigned m entities) as [c Hrun].
    destruct (anonymize_chain text entities m Hvalid Hpairs)
      as (_ & _ & Hltr & Hout).
    pose proof (assigned_lookup m entities i ent Hi) as Hlook.
    set (p := placeholder_of m (in_scope_ents m entities) (Span.text ent))
      in *.
    assert (Hin : (Span.start_char ent, Span.end_char ent, p)
                  ∈ reverse (sorted_reverse (assigned m entities))).
    { rewrite reverse_Permutation, sorted_reverse_perm.
      by apply list_elem_of_lookup_2 with i. }
    apply list_elem_of_split in Hin as (before & after & Hsplit).
    exists c, (assigned m entities), p, before, after.
    rewrite Hsplit in Hltr, Hout.
    apply left_to_right_app in Hltr as (Hbefore & _ & Hafter).
    rewrite Hend in Hafter.
    split_and!; [done|done| |done|done|].
    + by rewrite <- Hsplit, reverse_Permutation, sorted_reverse_perm.
    + rewrite Hout. unfold reference_rewrite.
      by rewrite reference_from_app, Hend.
  - rewrite anonymize_assigned. f_equal.
    assert (Hscope : in_scope_ents m [ent] = [ent]).
    { unfold in_scope_ents. rewrite filter_cons_True; [done|].
      unfold in_scope. by rewrite Hw. }
    unfold assigned. rewrite Hscope.
    change (rewrite_loop (sorted_reverse (?f <$> [ent])) text)
      with (substitute text (f ent)).
    cbv beta.
    rewrite (placeholder_of_first m [ent] 0 ent w)
      by (done || apply first_at_head).
    apply Hstep.
Qed.

Lemma zero_length_span_inserts_witness :
  (∀ entities, detected (lit "AB") (1, 1, lit "PERSON") ∈ entities →
     ∃ out, anonymize (lit "AB") entities person_only = Return out)
  ∧ (∀ p, substitute (lit "AB") (1, 1, p)
          = take 1 (lit "AB") ++ p ++ drop 1 (lit "AB"))
  ∧ (∃ placeholder_counter replacements p before after,
       assign_loop person_only
         (detected (lit "AB") <$>
            [(1, 2, lit "PERSON"); (1, 1, lit "PERSON")]) (∅, [])
       = Return (placeholder_counter, replacements)
       ∧ replacements !! 1%nat = Some (1, 1, p)
       ∧ before ++ (1, 1, p) :: after ≡ₚ replacements
       ∧ left_to_right 0 before 1
       ∧ left_to_right 1 after (len (lit "AB"))
       ∧ anonymize (lit "AB")
           (detected (lit "AB") <$>
              [(1, 2, lit "PERSON"); (1, 1, lit "PERSON")]) person_only
         = Return (reference_from (lit "AB") 0 before 1 ++ p
                     ++ reference_from (lit "AB") 1 after (len (lit "AB"))))
  ∧ anonymize (lit "AB") [detected (lit "AB") (1, 1, lit "PERSON")]
      person_only
    = Return (take 1 (lit "AB") ++ fstring (lit "person") 1
                ++ drop 1 (lit "AB"))
  ∧ anonymize_text (lit "AB") (detector (lit "en") [(1, 1, lit "PERSON")])
    = Return (lit "Aperson_1B").
Proof.
  destruct (zero_length_span_inserts (lit "AB") person_only
              (detected (lit "AB") (1, 1, lit "PERSON")) (lit "person"))
    as (Hreturns & Hstep & Hbatch & Halone & Hab).
  - vm_compute. reflexivity.
  - reflexivity.
  - vm_compute. split; discriminate.
  - split_and!; [exact Hreturns|exact Hstep| |exact Halone|exact Hab].
    apply (Hbatch
             (detected (lit "AB") <$>
                [(1, 2, lit "PERSON"); (1, 1, lit "PERSON")]) 1%nat);
      crunch_spans.
Defined.

(** ** Characters outside the spans *)

Lemma outside_from_app (E : list Span.t) (k : Z) (l1 l2 : str) :
  outside_from E k (l1 ++ l2)
  = outside_from E k l1 ++ outside_from E (k + len l1) l2.
Proof.
  revert k. induction l1 as [|ch l1 IH]; intros k; simpl.
  - do 2 f_equal. unfold len. simpl. lia.
  - replace (k + len (ch :: l1)) with (k + 1 + len l1)
      by (unfold len; simpl; lia).
    case_decide; by rewrite IH.
Qed.

Lemma outside_from_sublist (E : list Span.t) (k : Z) (l : str) :
  outside_from E k l `sublist_of` l.
Proof.
  revert k. induction l as [|ch l IH]; intros k; simpl; [constructor|].
  case_decide; by constructor.
Qed.

Lemma outside_from_covered (E : list Span.t) (k : Z) (l : str) :
  (∀ i, k ≤ i < k + len l → covered E i) → outside_from E k l = [].
Proof.
  revert k. induction l as [|ch l IH]; intros k Hcov; simpl; [done|].
  assert (Hlen : len (ch :: l) = 1 + len l) by (unfold len; simpl; lia).
  pose proof (len_nonneg l).
  rewrite decide_True by (apply Hcov; lia).
  apply IH. intros i Hi. apply Hcov. lia.
Qed.

Lemma slice_from_as_slice (text : str) (q : Z) :
  0 ≤ q ≤ len text → slice_from text q = slice text q (len text).
Proof.
  intros Hq. by rewrite slice_whole_tail, slice_from_in_range.
Qed.

Lemma slice_from_split (text : str) (q q' : Z) :
  0 ≤ q → q ≤ q' → q' ≤ len text →
  slice_from text q = slice text q q' ++ slice_from text q'.
Proof.
  intros. rewrite !slice_from_as_slice by lia. by apply slice_split.
Qed.

Lemma rest_outside_split (E : list Span.t) (text : str) (q q' : Z) :
  0 ≤ q → q ≤ q' → q' ≤ len text →
  rest_outside E text q
  = outside_from E q (slice text q q') ++ rest_outside E text q'.
Proof.
  intros. unfold rest_outside.
  rewrite (slice_from_split text q q') by lia.
  rewrite outside_from_app, len_slice by lia.
  do 2 f_equal. lia.
Qed.

Lemma rest_outside_sublist (E : list Span.t) (text : str) (q q' : Z)
    (G : str) :
  0 ≤ q → q ≤ q' → q' ≤ len text →
  rest_outside E text q' `sublist_of` G →
  rest_outside E text q `sublist_of` slice text q q' ++ G.
Proof.
  intros ? ? ? HG. rewrite (rest_outside_split E text q q') by lia.
  apply sublist_app; [apply outside_from_sublist|done].
Qed.

Lemma len_slice_to (text : str) (c : Z) :
  0 ≤ c ≤ len text → len (slice_to text c) = c.
Proof.
  intros Hc. rewrite slice_to_in_range by lia.
  unfold len in *. rewrite length_take. lia.
Qed.

Lemma outside_split (E : list Span.t) (text : str) (c : Z) :
  0 ≤ c ≤ len text →
  outside E text
  = outside_from E 0 (slice_to text c) ++ rest_outside E text c.
Proof.
  intros Hc. unfold outside, rest_outside.
  rewrite <- (slice_to_from text c) at 1.
  by rewrite outside_from_app, len_slice_to.
Qed.

(** One replacement that starts where the kept prefix ends and reaches into
    what follows it. *)
Lemma substitute_tie (text G1 G2 : str) (c e : Z) (p : str) :
  0 ≤ c ≤ len text → c ≤ e → e - c ≤ len G1 →
  substitute (slice_to text c ++ G1 ++ G2) (c, e, p)
  = slice_to text c ++ p ++ drop (Z.to_nat (e - c)) G1 ++ G2.
Proof.
  intros Hc Hce He. unfold substitute.
  pose proof (len_slice_to text c Hc) as Hlen.
  pose proof (len_nonneg G1). pose proof (len_nonneg G2).
  assert (Hlen' : len (slice_to text c ++ G1 ++ G2) = c + len G1 + len G2)
    by (rewrite !len_app; lia).
  rewrite (slice_to_in_range (_ ++ _)), (slice_from_in_range (_ ++ _)) by lia.
  unfold len in Hlen, He.
  rewrite take_app_length' by lia.
  rewrite drop_app_ge by lia.
  rewrite drop_app_le by lia.
  repeat f_equal. lia.
Qed.

Lemma insert_desc_tie (x : replacement) (l : list replacement) :
  x.1.1 ≤ x.1.2 → Forall (λ r, r.1.1 ≤ r.1.2) l →
  Forall (overlap_free x) l →
  StronglySorted tie_or_before l →
  StronglySorted tie_or_before (insert_desc x l).
Proof.
  intros Hx Hvalid Hfree Hsorted. revert Hvalid Hfree.
  induction Hsorted as [|y l Hl IH Hy]; intros Hvalid Hfree; simpl.
  - repeat constructor.
  - destruct (Z.leb_spec y.1.1 x.1.1) as [Hle|Hgt].
    + constructor; [by constructor|].
      apply Forall_forall. intros z Hz.
      assert (Hzx : z.1.1 ≤ x.1.1).
      { apply elem_of_cons in Hz as [->|Hz]; [done|].
        rewrite Forall_forall in Hy. destruct (Hy z Hz) as [Hzy _]. lia. }
      rewrite Forall_forall in Hfree. specialize (Hfree z Hz).
      unfold tie_or_before, overlap_free in *. lia.
    + apply Forall_cons in Hvalid as [Hvy Hvalid].
      apply Forall_cons in Hfree as [Hfy Hfree].
      constructor; [by apply IH|].
      apply Forall_insert_desc. split; [|done].
      unfold tie_or_before, overlap_free in *. lia.
Qed.

Lemma sorted_reverse_tie (l : list replacement) :
  Forall (λ r, r.1.1 ≤ r.1.2) l → pairwise overlap_free l →
  StronglySorted tie_or_before (sorted_reverse l).
Proof.
  induction l as [|x l IH]; simpl; [constructor|].
  intros [Hx Hvalid]%Forall_cons [Hfree Hpairs].
  apply insert_desc_tie; auto.
  - by apply Forall_sorted_reverse.
  - by apply Forall_sorted_reverse.
Qed.

(** *** What a sorted batch of non-overlapping entries leaves in place *)

Section survives.
Context (text : str) (P : Z → str → Prop) (Q : Z → Prop)
  (Done : str → Prop).
Hypothesis P_prepend : ∀ q X G, P q G → P q (X ++ G).
Hypothesis P_segment : ∀ q q' G,
  0 ≤ q → q ≤ q' → q' ≤ len text → Q q' →
  P q' G → P q (slice text q q' ++ G).
Hypothesis P_done : ∀ c G,
  0 ≤ c → c ≤ len text → Q c → P c G → Done (slice_to text c ++ G).

Lemma carries_init : P (len text) [] → carries P (len text) (len text) [].
Proof.
  intros HP q Hq. exists [], [].
  split_and!; [done|change (len []) with 0; lia|].
  by replace q with (len text) by lia.
Qed.

Lemma carries_at (c m : Z) (G : str) :
  c ≤ m → carries P c m G → P c G.
Proof.
  intros Hcm Hinv. destruct (Hinv c) as (G1 & G2 & -> & _ & HP); [lia|].
  by apply P_prepend.
Qed.

(** One step of the rewrite: the text after it, and what its tail carries. *)
Lemma substitute_carries (c m : Z) (G : str) (s e : Z) (p : str) :
  0 ≤ c → c ≤ m → m ≤ len text → Q c →
  fits P Q c m (s, e, p) → carries P c m G →
  ∃ D, substitute (slice_to text c ++ G) (s, e, p)
       = slice_to text s ++ p ++ D
       ∧ P e D
       ∧ (s = e → D = slice text s c ++ G).
Proof.
  intros Hc Hcm Hm HQ (Hs & Hse & Hsc & Hem & Htie & _ & _) Hinv.
  simpl in Hs, Hse, Hsc, Hem, Htie.
  destruct (Z.le_gt_cases e c) as [Hec|Hgt].
  - exists (slice text e c ++ G).
    split; [apply substitute_prefix; lia|]. split; [|by intros ->].
    apply P_segment; [lia..|done|]. by apply carries_at with m.
  - assert (s = c) as -> by lia.
    destruct (Hinv e) as (G1 & G2 & -> & HG1 & HP); [lia|].
    exists (drop (Z.to_nat (e - c)) G1 ++ G2).
    split; [apply substitute_tie; lia|].
    split; [by apply P_prepend|]. intros ->. lia.
Qed.

Lemma rewrite_loop_carries (L : list replacement) :
  StronglySorted tie_or_before L →
  ∀ (c m : Z) (G : str),
    0 ≤ c → c ≤ m → m ≤ len text → Q c →
    Forall (fits P Q c m) L → carries P c m G →
    Done (rewrite_loop L (slice_to text c ++ G)).
Proof.
  induction 1 as [|[[s e] p] L HL IH Hr];
    intros c m G Hc Hcm Hm HQ Hfits Hinv.
  - change (rewrite_loop [] ?t) with t.
    apply P_done; [lia..|done|]. by apply carries_at with m.
  - apply Forall_cons in Hfits as [Hfit Hfits].
    destruct (substitute_carries c m G s e p) as (D & Hsub & HD & Hzero);
      [done..|].
    destruct Hfit as (Hs & Hse & Hsc & Hem & Htie & HQs & Hskip).
    simpl in Hs, Hse, Hsc, Hem, Htie, HQs, Hskip.
    rewrite rewrite_loop_cons, Hsub.
    destruct (decide (s = e)) as [<-|Hne].
    + rewrite (Hzero eq_refl).
      apply (IH s m (p ++ slice text s c ++ G)); [lia..|done| |].
      * rewrite Forall_forall in *. intros y Hy.
        destruct (Hr y Hy) as [Hys Hye].
        destruct (Hfits y Hy) as (? & ? & ? & ? & ? & ? & ?).
        simpl in Hys, Hye. unfold fits. split_and!; [done..|lia|done|done].
      * intros q Hq. destruct (Z.le_gt_cases q c) as [Hqc|Hqc].
        -- exists (p ++ slice text s q), (slice text q c ++ G).
           split_and!.
           ++ rewrite (slice_split text s q c) by lia.
              by rewrite <- !app_assoc.
           ++ rewrite len_app, len_slice by lia.
              pose proof (len_nonneg p). lia.
           ++ apply P_segment; [lia..|done|]. by apply carries_at with m.
        -- destruct (Hinv q) as (G1 & G2 & -> & HG1 & HP); [lia|].
           exists (p ++ slice text s c ++ G1), G2. split_and!.
           ++ by rewrite <- !app_assoc.
           ++ rewrite !len_app, len_slice by lia.
              pose proof (len_nonneg p). lia.
           ++ done.
    + apply (IH s s (p ++ D)); [lia..|done| |].
      * rewrite Forall_forall in *. intros y Hy.
        destruct (Hr y Hy) as [Hys Hye].
        destruct (Hfits y Hy) as (? & ? & ? & ? & ? & ? & ?).
        simpl in Hys, Hye.
        unfold fits. split_and!; [done..|lia|lia|done|done].
      * intros q Hq. assert (q = s) as -> by lia.
        exists [], (p ++ D). split_and!; [done|change (len []) with 0; lia|].
        by apply P_prepend, Hskip.
Qed.

End survives.

(** The uncovered characters survive. *)
Lemma rewrite_loop_keeps_outside (E : list Span.t) (text : str)
    (L : list replacement) :
  StronglySorted tie_or_before L →
  Forall (λ r, 0 ≤ r.1.1 ∧ r.1.1 ≤ r.1.2 ∧ r.1.2 ≤ len text
               ∧ ∀ i, r.1.1 ≤ i < r.1.2 → covered E i) L →
  outside E text `sublist_of` rewrite_loop L text.
Proof.
  intros Hsorted Hvalid. pose proof (len_nonneg text).
  rewrite (text_as_prefix text) at 2.
  apply (rewrite_loop_carries text (carries_outside E text) (λ _, True)
           (λ t, outside E text `sublist_of` t)) with (len text);
    try done; try lia.
  - intros q X G. apply sublist_inserts_l.
  - intros q q' G ? ? ? _. by apply rest_outside_sublist.
  - intros c G ? ? _ HG. rewrite (outside_split E text c) by lia.
    apply sublist_app; [apply outside_from_sublist|done].
  - eapply Forall_impl; [exact Hvalid|].
    intros r (Hs & Hse & He & Hcov). unfold fits.
    split_and!; [lia..|by left|done|].
    intros D. unfold carries_outside.
    rewrite (rest_outside_split E text r.1.1 r.1.2) by lia.
    rewrite outside_from_covered; [done|].
    intros i Hi. rewrite len_slice in Hi by lia. apply Hcov. lia.
  - apply carries_init. unfold carries_outside, rest_outside.
    rewrite slice_from_in_range by lia.
    rewrite drop_ge by (unfold len; lia). constructor.
Qed.

(** A stretch of the text that no entry overlaps survives whole. *)
Lemma rewrite_loop_keeps_stretch (text : str) (a b : Z)
    (L : list replacement) :
  0 ≤ a → a ≤ b → b ≤ len text →
  StronglySorted tie_or_before L →
  Forall (λ r, 0 ≤ r.1.1 ∧ r.1.1 ≤ r.1.2 ∧ r.1.2 ≤ len text
               ∧ (r.1.2 ≤ a ∨ b ≤ r.1.1)) L →
  ∃ X Y, rewrite_loop L text = X ++ slice text a b ++ Y.
Proof.
  intros Ha Hab Hb Hsorted Hvalid. pose proof (len_nonneg text).
  enough (∃ X Y, rewrite_loop L (slice_to text (len text) ++ [])
                 = X ++ slice text a b ++ Y) as Hgoal
    by (by rewrite <- text_as_prefix in Hgoal).
  apply (rewrite_loop_carries text (carries_stretch text a b)
           (clear_cut a b)
           (λ t, ∃ X Y, t = X ++ slice text a b ++ Y)) with (len text);
    try done; try lia.
  - intros q X G HG Hq. destruct (HG Hq) as (X' & Y & ->).
    exists (X ++ X'), Y. by rewrite <- !app_assoc.
  - intros q q' G ? ? ? [Hcut|Hcut] HG Hq.
    + destruct HG as (X & Y & ->); [lia|].
      exists (slice text q q' ++ X), Y. by rewrite <- !app_assoc.
    + exists (slice text q a), (slice text b q' ++ G).
      rewrite (slice_split text q a q') by lia.
      rewrite (slice_split text a b q') by lia.
      by rewrite <- !app_assoc.
  - intros c G ? ? [Hcut|Hcut] HG.
    + destruct HG as (X & Y & ->); [lia|].
      exists (slice_to text c ++ X), Y. by rewrite <- !app_assoc.
    + exists (slice text 0 a), (slice text b c ++ G).
      replace (slice_to text c) with (slice text 0 c).
      * rewrite (slice_split text 0 a c) by lia.
        rewrite (slice_split text a b c) by lia.
        by rewrite <- !app_assoc.
      * rewrite slice_in_range, slice_to_in_range by lia.
        rewrite drop_0. f_equal. lia.
  - by right.
  - eapply Forall_impl; [exact Hvalid|].
    intros r (Hs & Hse & He & Hclear). unfold fits, clear_cut.
    split_and!; [lia..|by left|lia|].
    intros D HD Hq. destruct Hclear as [Hclear|Hclear].
    + apply HD. lia.
    + assert (a = b) as -> by lia.
      exists [], D. unfold slice. by rewrite Z.sub_diag.
  - apply carries_init. intros Hq. assert (a = b) as -> by lia.
    exists [], []. unfold slice. by rewrite Z.sub_diag.
Qed.

Lemma assigned_covered (text : str) (m : gmap str str)
    (entities : list Span.t) :
  Forall (valid_span text) (in_scope_ents m entities) →
  Forall (λ r, 0 ≤ r.1.1 ∧ r.1.1 ≤ r.1.2 ∧ r.1.2 ≤ len text
               ∧ ∀ i, r.1.1 ≤ i < r.1.2 →
                      covered (in_scope_ents m entities) i)
    (assigned m entities).
Proof.
  intros Hvalid. unfold assigned. apply Forall_fmap.
  rewrite Forall_forall in *. intros ent Hent.
  destruct (Hvalid ent Hent) as (Hs & Hse & He).
  simpl. split_and!; [lia..|].
  intros i Hi. apply Exists_exists. by exists ent.
Qed.

Lemma assigned_tie (text : str) (m : gmap str str)
    (entities : list Span.t) :
  Forall (valid_span text) (in_scope_ents m entities) →
  pairwise non_overlapping (in_scope_ents m entities) →
  StronglySorted tie_or_before (sorted_reverse (assigned m entities)).
Proof.
  intros Hvalid Hpairs. apply sorted_reverse_tie.
  - eapply Forall_impl; [by apply assigned_valid|]. intros r. simpl. lia.
  - unfold assigned. by apply pairwise_fmap.
Qed.

(** C2, as stated, fails: on ["abcdefghijkl"] with the valid spans
    [(0, 10, DATE)] and [(1, 9, DATE)], one inside the other, the inner
    replacement shortens the text, the outer one then cuts past its end, and
    the characters ["kl"], which no span covers, are missing from the result
    ["date_1"]. *)
Lemma nested_spans_lose_outside_characters :
  Forall (valid_span (lit "abcdefghijkl"))
    (detected (lit "abcdefghijkl") <$>
       [(0, 10, lit "DATE"); (1, 9, lit "DATE")])
  ∧ outside
      (in_scope_ents (placeholder_mapping (detector (lit "en") []))
         (detected (lit "abcdefghijkl") <$>
            [(0, 10, lit "DATE"); (1, 9, lit "DATE")]))
      (lit "abcdefghijkl")
    = lit "kl"
  ∧ anonymize_text (lit "abcdefghijkl")
      (detector (lit "en") [(0, 10, lit "DATE"); (1, 9, lit "DATE")])
    = Return (lit "date_1")
  ∧ ¬ lit "kl" `sublist_of` lit "date_1".
Proof.
  split_and!.
  - repeat constructor; vm_compute; discriminate.
  - vm_compute. reflexivity.
  - vm_compute. reflexivity.
  - intros Hsub%sublist_subseteq.
    assert (Hk : 107%N ∈ lit "kl") by (vm_compute; by left).
    apply Hsub in Hk. vm_compute in Hk.
    repeat (apply elem_of_cons in Hk as [Hk|Hk]; [discriminate|]).
    by apply elem_of_nil in Hk.
Qed.

(** C2, amended: for every text and every batch whose in-scope spans are
    valid and pairwise share no position, the characters of the text that no
    in-scope span covers appear in the result unchanged and in their original
    order. *)
Theorem outside_characters_preserved (text : str) (entities : list Span.t)
    (m : gmap str str) :
  Forall (valid_span text) (in_scope_ents m entities) →
  pairwise non_overlapping (in_scope_ents m entities) →
  ∃ out, anonymize text entities m = Return out
         ∧ outside (in_scope_ents m entities) text `sublist_of` out.
Proof.
  intros Hvalid Hpairs. rewrite anonymize_assigned. eexists. split; [done|].
  apply rewrite_loop_keeps_outside.
  - by apply assigned_tie with text.
  - by apply Forall_sorted_reverse, assigned_covered.
Qed.

Lemma outside_characters_preserved_witness :
  ∃ out, anonymize alice (detected alice <$> alice_spans) person_only
         = Return out
         ∧ outside
             (in_scope_ents person_only (detected alice <$> alice_spans))
             alice `sublist_of` out.
Proof.
  apply (outside_characters_preserved alice
           (detected alice <$> alice_spans) person_only); crunch_spans.
Defined.

(** ** Category filtering *)

Lemma in_scope_ents_remove (m : gmap str str)
    (l1 l2 : list Span.t) (ent : Span.t) :
  ¬ in_scope m ent →
  in_scope_ents m (l1 ++ ent :: l2) = in_scope_ents m (l1 ++ l2).
Proof.
  intros Hout. unfold in_scope_ents.
  by rewrite !filter_app, filter_cons_False.
Qed.

Lemma assigned_remove (m : gmap str str)
    (l1 l2 : list Span.t) (ent : Span.t) :
  ¬ in_scope m ent → assigned m (l1 ++ ent :: l2) = assigned m (l1 ++ l2).
Proof. intros Hout. unfold assigned. by rewrite in_scope_ents_remove. Qed.

(** C9, as stated, fails: on ["Paris"] with the spans [(0, 5, ORG)] and
    [(0, 5, GPE)], ORG is no key of the mapping, yet the text its span covers
    is replaced, by the placeholder of the GPE span over it. *)
Lemma out_of_scope_text_replaced :
  ¬ in_scope english_words (detected (lit "Paris") (0, 5, lit "ORG"))
  ∧ anonymize_text (lit "Paris")
      (detector (lit "en") [(0, 5, lit "ORG"); (0, 5, lit "GPE")])
    = Return (lit "location_1")
  ∧ ¬ ∃ X Y, lit "location_1" = X ++ slice (lit "Paris") 0 5 ++ Y.
Proof.
  split_and!.
  - intros [w Hw]. vm_compute in Hw. discriminate.
  - vm_compute. reflexivity.
  - intros (X & Y & Heq).
    assert (Hin : 80%N ∈ X ++ slice (lit "Paris") 0 5 ++ Y).
    { apply elem_of_app. right. apply elem_of_app. left.
      vm_compute. by left. }
    rewrite <- Heq in Hin. vm_compute in Hin.
    repeat (apply elem_of_cons in Hin as [Hin|Hin]; [discriminate|]).
    by apply elem_of_nil in Hin.
Qed.

(** C9, amended: an entity whose label is no key of the mapping is filtered
    out.  The result is the result for the batch without it, and so is the
    list of replacements.  The text it covers is carried over whole when its
    span is valid and the in-scope spans are valid and overlap neither one
    another nor it. *)
Theorem out_of_scope_entity_filtered (text : str) (l1 l2 : list Span.t)
    (ent : Span.t) (m : gmap str str) :
  ¬ in_scope m ent →
  anonymize text (l1 ++ ent :: l2) m = anonymize text (l1 ++ l2) m
  ∧ (∃ c c' replacements,
       assign_loop m (l1 ++ ent :: l2) (∅, []) = Return (c, replacements)
       ∧ assign_loop m (l1 ++ l2) (∅, []) = Return (c', replacements)
       ∧ length replacements = length (in_scope_ents m (l1 ++ l2)))
  ∧ (Forall (valid_span text) (in_scope_ents m (l1 ++ l2)) →
     pairwise non_overlapping (in_scope_ents m (l1 ++ l2)) →
     valid_span text ent →
     Forall (non_overlapping ent) (in_scope_ents m (l1 ++ l2)) →
     ∃ out X Y,
       anonymize text (l1 ++ ent :: l2) m = Return out
       ∧ out = X ++ slice text (Span.start_char ent) (Span.end_char ent)
                 ++ Y).
Proof.
  intros Hout.
  assert (Hsame : anonymize text (l1 ++ ent :: l2) m
                  = anonymize text (l1 ++ l2) m)
    by (by rewrite !anonymize_assigned, assigned_remove).
  split_and!; [done| |].
  - destruct (assign_loop_assigned m (l1 ++ ent :: l2)) as [c Hc].
    destruct (assign_loop_assigned m (l1 ++ l2)) as [c' Hc'].
    rewrite assigned_remove in Hc by done.
    exists c, c', (assigned m (l1 ++ l2)). split_and!; [done..|].
    unfold assigned. by rewrite length_fmap.
  - intros Hvalid Hpairs (Ha & Hab & Hb) Hclear.
    rewrite Hsame, anonymize_assigned.
    destruct (rewrite_loop_keeps_stretch text (Span.start_char ent)
                (Span.end_char ent)
                (sorted_reverse (assigned m (l1 ++ l2))))
      as (X & Y & HXY); [done..|by apply assigned_tie with text| |].
    + apply Forall_sorted_reverse. unfold assigned. apply Forall_fmap.
      rewrite Forall_forall in *. intros e He.
      destruct (Hvalid e He) as (? & ? & ?).
      pose proof (Hclear e He) as Hno. unfold non_overlapping in Hno.
      simpl. split_and!; [done..|lia].
    + eexists _, X, Y. split; [done|exact HXY].
Qed.

Lemma out_of_scope_entity_filtered_witness :
  anonymize (lit "Acme met Bob")
    ([] ++ detected (lit "Acme met Bob") (0, 4, lit "ORG")
        :: [detected (lit "Acme met Bob") (9, 12, lit "PERSON")])
    english_words
  = anonymize (lit "Acme met Bob")
      ([] ++ [detected (lit "Acme met Bob") (9, 12, lit "PERSON")])
      english_words
  ∧ ∃ out X Y,
      anonymize (lit "Acme met Bob")
        ([] ++ detected (lit "Acme met Bob") (0, 4, lit "ORG")
            :: [detected (lit "Acme met Bob") (9, 12, lit "PERSON")])
        english_words
      = Return out
      ∧ out = X ++ slice (lit "Acme met Bob") 0 4 ++ Y.
Proof.
  destruct (out_of_scope_entity_filtered (lit "Acme met Bob") []
              [detected (lit "Acme met Bob") (9, 12, lit "PERSON")]
              (detected (lit "Acme met Bob") (0, 4, lit "ORG"))
              english_words) as (Hsame & _ & Hkept).
  - intros [w Hw]. vm_compute in Hw. discriminate.
  - split; [exact Hsame|]. apply Hkept; crunch_spans.
Defined.

(** ** Lines *)

Lemma split_lines_not_nil (text : str) : split_lines text ≠ [].
Proof.
  destruct text as [|ch text]; cbn [split_lines]; [done|].
  case_decide; [done|]. by destruct (split_lines text).
Qed.

Lemma split_lines_cons (ch : N) (text : str) :
  ch ≠ newline →
  ∃ line lines, split_lines text = line :: lines
                ∧ split_lines (ch :: text) = (ch :: line) :: lines.
Proof.
  intros Hch. cbn [split_lines]. rewrite decide_False by done.
  destruct (split_lines text) as [|line lines] eqn:Hs.
  - by apply split_lines_not_nil in Hs.
  - by eexists _, _.
Qed.

Lemma join_lines_cons (part : str) (parts : list str) :
  parts ≠ [] →
  join_lines (part :: parts) = part ++ newline :: join_lines parts.
Proof. by destruct parts. Qed.

Lemma join_split_lines (text : str) : join_lines (split_lines text) = text.
Proof.
  induction text as [|ch text IH]; [done|].
  destruct (decide (ch = newline)) as [->|Hch].
  - cbn [split_lines]. rewrite decide_True by done.
    rewrite join_lines_cons by apply split_lines_not_nil. by rewrite IH.
  - destruct (split_lines_cons ch text Hch) as (line & lines & Hs & ->).
    rewrite Hs in IH. destruct lines as [|line' lines].
    + simpl in *. by rewrite IH.
    + rewrite join_lines_cons in * by done. simpl. by rewrite <- IH.
Qed.

Lemma split_lines_no_newline (text : str) :
  Forall (λ line, newline ∉ line) (split_lines text).
Proof.
  induction text as [|ch text IH].
  - repeat constructor. apply not_elem_of_nil.
  - destruct (decide (ch = newline)) as [->|Hch].
    + cbn [split_lines]. rewrite decide_True by done.
      constructor; [|done]. apply not_elem_of_nil.
    + destruct (split_lines_cons ch text Hch) as (line & lines & Hs & ->).
      rewrite Hs in IH. apply Forall_cons in IH as [Hline Hlines].
      constructor; [|done]. apply not_elem_of_cons. split; [done|done].
Qed.

Lemma length_split_lines (text : str) :
  length (split_lines text) = S (line_feeds text).
Proof.
  unfold line_feeds. induction text as [|ch text IH]; [done|].
  destruct (decide (ch = newline)) as [->|Hch].
  - cbn [split_lines]. rewrite decide_True by done.
    rewrite filter_cons_True by done. simpl. by rewrite IH.
  - destruct (split_lines_cons ch text Hch) as (line & lines & Hs & ->).
    rewrite filter_cons_False by done. by rewrite <- IH, Hs.
Qed.

(** The lines of a text without a line feed: the text itself. *)
Lemma split_lines_one (line : str) :
  newline ∉ line → split_lines line = [line].
Proof.
  induction line as [|ch line IH]; [done|].
  intros [Hch Hline]%not_elem_of_cons.
  destruct (split_lines_cons ch line) as (l & ls & Hs & ->); [done|].
  rewrite IH in Hs by done. by injection Hs as <- <-.
Qed.

Lemma split_lines_app (line rest : str) :
  newline ∉ line →
  split_lines (line ++ newline :: rest) = line :: split_lines rest.
Proof.
  induction line as [|ch line IH]; intros Hline.
  - cbn [app split_lines]. by rewrite decide_True.
  - apply not_elem_of_cons in Hline as [Hch Hline].
    destruct (split_lines_cons ch (line ++ newline :: rest))
      as (l & ls & Hs & Heq); [done|].
    simpl app. rewrite Heq. rewrite IH in Hs by done. by injection Hs as <- <-.
Qed.

Lemma split_join_lines (parts : list str) :
  parts ≠ [] → Forall (λ part, newline ∉ part) parts →
  split_lines (join_lines parts) = parts.
Proof.
  induction parts as [|part parts IH]; [done|]. intros _ Hparts.
  apply Forall_cons in Hparts as [Hpart Hparts].
  destruct parts as [|part' parts].
  - by apply split_lines_one.
  - rewrite join_lines_cons by done.
    rewrite split_lines_app by done. by rewrite IH.
Qed.

(** ** Runs of calls *)

Lemma io_bind_returned {A B : Type} (m : io A) (k : A → io B)
    (log log' : list call) (a : A) :
  m log = (log', inr a) → io_bind m k log = k a log'.
Proof. intros Hm. unfold io_bind. by rewrite Hm. Qed.

Lemma io_bind_raised {A B : Type} (m : io A) (k : A → io B)
    (log log' : list call) (e : raised) :
  m log = (log', inl e) → io_bind m k log = (log', inl e).
Proof. intros Hm. unfold io_bind. by rewrite Hm. Qed.

Lemma io_bind_ext {A B : Type} (m : io A) (k k' : A → io B)
    (log : list call) :
  (∀ a log', k a log' = k' a log') → io_bind m k log = io_bind m k' log.
Proof.
  intros Hk. unfold io_bind. destruct (m log) as [log' [e|a]]; [done|].
  apply Hk.
Qed.

Lemma io_bind_ext_l {A B : Type} (m m' : io A) (k : A → io B)
    (log : list call) :
  (∀ log', m log' = m' log') → io_bind m k log = io_bind m' k log.
Proof. intros Hm. unfold io_bind. by rewrite Hm. Qed.

Lemma io_bind_assoc {A B C : Type} (m : io A) (k : A → io B) (h : B → io C)
    (log : list call) :
  io_bind (io_bind m k) h log = io_bind m (λ a, io_bind (k a) h) log.
Proof. unfold io_bind. by destruct (m log) as [log' [e|a]]. Qed.

Lemma io_bind_ret_tt (m : io unit) (log : list call) :
  io_bind m (λ _, io_ret tt) log = m log.
Proof. unfold io_bind, io_ret. by destruct (m log) as [log' [e|[]]]. Qed.

Lemma perform_run (L : Libraries) (c : call) (log : list call) :
  perform L c log
  = (log ++ [c], match refused L log c with
                 | Some e => inl (LibraryError e)
                 | None => inr tt
                 end).
Proof. unfold perform, ask. by destruct (refused L log c). Qed.

Lemma for_each_fmap {A : Type} (L : Libraries) (f : A → call) (l : list A)
    (log : list call) :
  for_each (λ x, perform L (f x)) l log = for_each (perform L) (f <$> l) log.
Proof.
  revert log. induction l as [|x l IH]; intros log; [done|].
  simpl. by apply io_bind_ext.
Qed.

Lemma for_each_app {A : Type} (f : A → io unit) (l1 l2 : list A)
    (log : list call) :
  for_each f (l1 ++ l2) log
  = io_bind (for_each f l1) (λ _, for_each f l2) log.
Proof.
  revert log. induction l1 as [|x l1 IH]; intros log; [done|].
  simpl. rewrite io_bind_assoc. by apply io_bind_ext.
Qed.

Lemma for_each_snoc {A : Type} (f : A → io unit) (l : list A) (x : A)
    (log : list call) :
  for_each f (l ++ [x]) log = io_bind (for_each f l) (λ _, f x) log.
Proof.
  rewrite for_each_app. apply io_bind_ext. intros _ log'. simpl.
  apply io_bind_ret_tt.
Qed.

(** A run of calls without results makes them in order and stops at the
    first one that raises. *)
Lemma for_each_perform (L : Libraries) (calls : list call)
    (log : list call) :
  ∃ made,
    (for_each (perform L) calls log).1 = log ++ made
    ∧ made `prefix_of` calls
    ∧ match (for_each (perform L) calls log).2 with
      | inr _ =>
          made = calls
          ∧ ∀ pre c rest, calls = pre ++ c :: rest →
                          refused L (log ++ pre) c = None
      | inl e =>
          ∃ pre c e', made = pre ++ [c]
                      ∧ refused L (log ++ pre) c = Some e'
                      ∧ e = LibraryError e'
      end.
Proof.
  revert log. induction calls as [|c calls IH]; intros log.
  - exists []. simpl. rewrite app_nil_r. split_and!; [done..|].
    intros [|? ?] ? ? ?; discriminate.
  - simpl. unfold io_bind. rewrite perform_run.
    destruct (refused L log c) as [e|] eqn:Hc.
    + exists [c]. simpl. split_and!; [done|by exists calls|].
      exists [], c, e. by rewrite app_nil_r.
    + destruct (IH (log ++ [c])) as (made & Hlog & Hprefix & Hres).
      exists (c :: made). rewrite Hlog, <- app_assoc.
      split_and!; [done|by apply prefix_cons|].
      destruct (for_each (perform L) calls (log ++ [c])).2 as [e|[]].
      * destruct Hres as (pre & c' & e' & -> & Hc' & ->).
        exists (c :: pre), c', e'. split_and!; [done| |done].
        by rewrite <- app_assoc in Hc'.
      * destruct Hres as [-> Hall]. split; [done|].
        intros [|c0 pre] c' rest Heq; simplify_eq/=.
        -- by rewrite app_nil_r.
        -- specialize (Hall pre c' rest eq_refl).
           by rewrite <- app_assoc in Hall.
Qed.

Lemma write_file_run (L : Libraries) (output_path text format : str)
    (log : list call) :
  supported_format format →
  write_file L output_path text format log
  = for_each (perform L) (write_calls output_path text format) log.
Proof.
  intros Hformat. unfold write_file, write_calls.
  destruct (decide (format = lit "txt")) as [_|Hne1].
  { simpl. by rewrite io_bind_ret_tt. }
  destruct (decide (format = lit "docx")) as [_|Hne2].
  { cbn [for_each]. apply io_bind_ext. intros _ log1.
    rewrite for_each_snoc. apply io_bind_ext_l. intros log2.
    apply for_each_fmap. }
  destruct (decide (format = lit "pdf")) as [_|Hne3].
  { cbn [for_each app]. do 4 (apply io_bind_ext; intros _ ?).
    rewrite for_each_snoc. apply io_bind_ext_l. intros log2.
    apply for_each_fmap. }
  by destruct Hformat as [?|[?|?]].
Qed.

Lemma for_each_perform_ok (L : Libraries) (calls : list call)
    (log : list call) :
  (∀ pre c rest, calls = pre ++ c :: rest →
                 refused L (log ++ pre) c = None) →
  for_each (perform L) calls log = (log ++ calls, inr tt).
Proof.
  revert log. induction calls as [|c calls IH]; intros log Hok.
  - simpl. by rewrite app_nil_r.
  - simpl. unfold io_bind. rewrite perform_run.
    pose proof (Hok [] c calls eq_refl) as Hc. rewrite app_nil_r in Hc.
    rewrite Hc, IH; [by rewrite <- app_assoc|].
    intros pre c' rest ->. rewrite <- app_assoc.
    by apply (Hok (c :: pre) c' rest).
Qed.

(** A run of calls without results either makes them all, none raising, and
    returns, or stops at the first one that raises, with its exception. *)
Lemma for_each_perform_stops (L : Libraries) (calls : list call)
    (log : list call) :
  none_raises L log calls
  ∧ for_each (perform L) calls log = (log ++ calls, inr tt)
  ∨ ∃ pre c rest e,
      calls = pre ++ c :: rest
      ∧ none_raises L log pre
      ∧ refused L (log ++ pre) c = Some e
      ∧ for_each (perform L) calls log
        = (log ++ pre ++ [c], inl (LibraryError e)).
Proof.
  revert log. induction calls as [|c calls IH]; intros log.
  - left. split; [|by rewrite app_nil_r].
    intros [|? ?] ? ? ?; discriminate.
  - simpl. unfold io_bind. rewrite perform_run.
    destruct (refused L log c) as [e|] eqn:Hc.
    + right. exists [], c, calls, e. rewrite app_nil_r.
      split_and!; [done| |done|done].
      intros [|? ?] ? ? ?; discriminate.
    + destruct (IH (log ++ [c]))
        as [[Hok ->]|(pre & c' & rest & e & -> & Hpre & Hc' & ->)].
      * left. split; [|by rewrite <- app_assoc].
        intros [|c0 pre] c' rest Heq; simplify_eq/=.
        -- by rewrite app_nil_r.
        -- specialize (Hok pre c' rest eq_refl).
           by rewrite <- app_assoc in Hok.
      * right. exists (c :: pre), c', rest, e.
        rewrite <- !app_assoc in *. split_and!; [done| |done|done].
        intros [|c0 pre'] c'' rest' Heq; simplify_eq/=.
        -- by rewrite app_nil_r.
        -- specialize (Hpre pre' c'' rest' eq_refl).
           by rewrite <- app_assoc in Hpre.
Qed.

Lemma write_file_stops (L : Libraries) (output_path text format : str)
    (log : list call) :
  supported_format format →
  (none_raises L log (write_calls output_path text format)
   ∧ write_file L output_path text format log
     = (log ++ write_calls output_path text format, inr tt)
   ∨ ∃ pre c rest e,
       write_calls output_path text format = pre ++ c :: rest
       ∧ none_raises L log pre
       ∧ refused L (log ++ pre) c = Some e
       ∧ write_file L output_path text format log
         = (log ++ pre ++ [c], inl (LibraryError e)))
  ∧ (none_raises L log (write_calls output_path text format) →
     write_file L output_path text format log
     = (log ++ write_calls output_path text format, inr tt)).
Proof.
  intros Hformat. rewrite write_file_run by done.
  split; [apply for_each_perform_stops|apply for_each_perform_ok].
Qed.

Lemma write_file_unsupported (L : Libraries) (output_path text format : str)
    (log : list call) :
  ¬ supported_format format →
  write_file L output_path text format log
  = (log, inl (ValueError
       (lit "Unsupported output format. Supported formats are: txt, docx, pdf."))).
Proof.
  intros Hformat. unfold write_file, supported_format in *.
  rewrite !decide_False by tauto. done.
Qed.

Lemma load_language_model_run (L : Libraries) (language : str)
    (log : list call) :
  (language ≠ lit "english" ∧ language ≠ lit "hebrew"
   ∧ load_language_model L language log
     = (log, inl (ValueError
          (lit "Unsupported language. Choose either 'english' or 'hebrew'."))))
  ∨ ∃ name, loads language name
            ∧ load_language_model L language log
              = (log ++ [spacy_load name],
                 match models L log name with
                 | inl e => inl (LibraryError e)
                 | inr nlp => inr nlp
                 end).
Proof.
  unfold load_language_model, loads.
  destruct (decide (language = lit "english")) as [->|Hne1];
    [right; eexists; split; [by left|done]|].
  destruct (decide (language = lit "hebrew")) as [->|Hne2];
    [right; eexists; split; [by right|done]|].
  by left.
Qed.

Lemma read_file_run (L : Libraries) (input_path : str) (log : list call) :
  (suffix L input_path ≠ lit ".txt" ∧ suffix L input_path ≠ lit ".docx"
   ∧ read_file L input_path log
     = (log, inl (ValueError
          (lit "Unsupported file type. Supported types are: .txt, .docx"))))
  ∨ (suffix L input_path = lit ".txt"
     ∧ read_file L input_path log
       = (log ++ [open_read input_path],
          match contents L log input_path with
          | inl e => inl (LibraryError e)
          | inr text => inr text
          end))
  ∨ (suffix L input_path = lit ".docx"
     ∧ read_file L input_path log
       = (log ++ [Document_open input_path],
          match paragraphs L log input_path with
          | inl e => inl (LibraryError e)
          | inr doc => inr (join_lines doc)
          end)).
Proof.
  unfold read_file.
  destruct (decide (suffix L input_path = lit ".txt")) as [Htxt|Hne1];
    [right; left; by split|].
  destruct (decide (suffix L input_path = lit ".docx")) as [Hdocx|Hne2].
  - right; right. split; [done|]. unfold io_bind, ask, io_ret.
    by destruct (paragraphs L log input_path).
  - by left.
Qed.

Lemma anonymize_text_call_run (L : Libraries) (text : str) (nlp : Language)
    (log : list call) :
  anonymize_text_call L text nlp log
  = (log ++ [nlp_call text],
     match refused L log (nlp_call text) with
     | Some e => inl (LibraryError e)
     | None =>
         inr (rewrite_loop
                (sorted_reverse
                   (assigned (placeholder_mapping nlp)
                      (ents (pipe nlp text))))
                text)
     end).
Proof.
  unfold anonymize_text_call, io_bind, ask.
  destruct (refused L log (nlp_call text)); [done|].
  by rewrite anonymize_assigned.
Qed.

(** The calls of [main], in the order it makes them: at most one model, at
    most one read, at most one run of the pipeline, the calls of the write
    as far as they went, and the confirmation once the write is complete. *)
Lemma main_shape (L : Libraries)
    (input_path output_path language output_format : str) :
  ∃ loaded read piped written printed result,
    main L input_path output_path language output_format []
    = (loaded ++ read ++ piped ++ written ++ printed, result)
    ∧ (loaded = [] ∨ ∃ name, loads language name ∧ loaded = [spacy_load name])
    ∧ (read = [] ∨ read = [open_read input_path]
       ∨ read = [Document_open input_path])
    ∧ (piped = [] ∨ ∃ text, piped = [nlp_call text])
    ∧ (written = []
       ∨ ∃ text, supported_format output_format
                 ∧ written `prefix_of`
                     write_calls output_path text output_format)
    ∧ (printed = [] ∧ result ≠ inr tt
       ∨ printed = [print_ (confirmation output_path)]
         ∧ (∃ text, supported_format output_format
                    ∧ written = write_calls output_path text output_format)
         ∧ ∀ pre c rest, written = pre ++ c :: rest →
                         refused L (loaded ++ read ++ piped ++ pre) c = None).
Proof.
  unfold main.
  destruct (load_language_model_run L language [])
    as [(_ & _ & Hload)|(name & Hname & Hload)].
  { exists [], [], [], [], []. eexists.
    rewrite (io_bind_raised _ _ _ _ _ Hload). split_and!; auto. }
  simpl in Hload.
  destruct (models L [] name) as [e|nlp].
  { exists [spacy_load name], [], [], [], []. eexists.
    rewrite (io_bind_raised _ _ _ _ _ Hload).
    split_and!; eauto. }
  rewrite (io_bind_returned _ _ _ _ _ Hload).
  assert (Hread : ∃ rc, read_file L input_path [spacy_load name]
            = ([spacy_load name], inl (ValueError
                 (lit "Unsupported file type. Supported types are: .txt, .docx")))
          ∨ (rc = open_read input_path ∨ rc = Document_open input_path)
            ∧ ∃ r, read_file L input_path [spacy_load name]
                   = ([spacy_load name; rc], r)).
  { destruct (read_file_run L input_path [spacy_load name])
      as [(_ & _ & ->)|[[_ ->]|[_ ->]]].
    - exists Document_new. by left.
    - exists (open_read input_path). right. split; [by left|by eexists].
    - exists (Document_open input_path). right.
      split; [by right|by eexists]. }
  destruct Hread as [rc [Hread|[Hrc [[e|text] Hread]]]].
  { exists [spacy_load name], [], [], [], []. eexists.
    rewrite (io_bind_raised _ _ _ _ _ Hread). split_and!; eauto. }
  { exists [spacy_load name], [rc], [], [], []. eexists.
    rewrite (io_bind_raised _ _ _ _ _ Hread).
    split_and!; eauto. destruct Hrc as [-> | ->]; auto. }
  rewrite (io_bind_returned _ _ _ _ _ Hread).
  assert (Hrc' : [rc] = [] ∨ [rc] = [open_read input_path]
                 ∨ [rc] = [Document_open input_path])
    by (destruct Hrc as [-> | ->]; auto).
  pose proof (anonymize_text_call_run L text nlp [spacy_load name; rc])
    as Hcore.
  destruct (refused L [spacy_load name; rc] (nlp_call text)) as [e|].
  { exists [spacy_load name], [rc], [nlp_call text], [], []. eexists.
    rewrite (io_bind_raised _ _ _ _ _ Hcore).
    split_and!; eauto. }
  rewrite (io_bind_returned _ _ _ _ _ Hcore).
  set (anonymized := rewrite_loop _ text).
  destruct (decide (supported_format output_format)) as [Hformat|Hformat].
  2: { exists [spacy_load name], [rc], [nlp_call text], [], []. eexists.
       rewrite (io_bind_raised _ _ _ _ _
                  (write_file_unsupported L _ _ _ _ Hformat)).
       split_and!; eauto. }
  destruct (for_each_perform L
              (write_calls output_path anonymized output_format)
              ([spacy_load name; rc] ++ [nlp_call text]))
    as (made & Hlog & Hprefix & Hres).
  rewrite <- (write_file_run L _ _ _ _ Hformat) in Hlog, Hres.
  destruct (write_file L output_path anonymized output_format
              ([spacy_load name; rc] ++ [nlp_call text]))
    as [log' [e|[]]] eqn:Hwrite;
    simpl in Hlog, Hres; subst log'.
  { exists [spacy_load name], [rc], [nlp_call text], made, []. eexists.
    rewrite (io_bind_raised _ _ _ _ _ Hwrite), app_nil_r.
    split_and!; [done|eauto|done|eauto|right; by exists anonymized|by left]. }
  destruct Hres as [-> Hok].
  rewrite (io_bind_returned _ _ _ _ _ Hwrite), perform_run.
  exists [spacy_load name], [rc], [nlp_call text],
    (write_calls output_path anonymized output_format),
    [print_ (confirmation output_path)]. eexists.
  split_and!; [reflexivity|eauto|done|eauto| |].
  - right. by exists anonymized.
  - right. split_and!; [done|by exists anonymized|done].
Qed.

(** ** The calls of [write_file] *)

Lemma added_paragraphs_docx (lines : list str) (path : str) :
  added_paragraphs
    (Document_new :: (add_paragraph <$> lines) ++ [Document_save path])
  = lines.
Proof.
  unfold added_paragraphs. cbn [omap list_omap].
  induction lines as [|line lines IH]; [done|].
  cbn [fmap list_fmap app omap list_omap]. by f_equal.
Qed.

Lemma write_calls_docx (output_path text : str) :
  write_calls output_path text (lit "docx")
  = Document_new :: (add_paragraph <$> split_lines text)
      ++ [Document_save output_path].
Proof. done. Qed.

Lemma write_calls_pdf (output_path text : str) :
  write_calls output_path text (lit "pdf")
  = [FPDF_new; add_page; set_auto_page_break true 15;
     set_font (lit "Arial") 12]
      ++ (multi_cell 0 10 <$> split_lines text)
      ++ [FPDF_output output_path].
Proof. done. Qed.

(** The last call of a write is the one that completes the file. *)
Lemma write_calls_last (output_path text format : str) :
  ∃ init w, write_calls output_path text format = init ++ [w]
            ∧ completes output_path w.
Proof.
  unfold write_calls, completes.
  destruct (decide (format = lit "txt")); [exists []; eauto|].
  destruct (decide (format = lit "docx")).
  - eexists (Document_new :: _), _. split; [done|auto].
  - eexists ([_; _; _; _] ++ _), _. rewrite <- app_assoc. split; [done|auto].
Qed.

Lemma write_calls_no_print (output_path text format message : str) :
  print_ message ∉ write_calls output_path text format.
Proof.
  unfold write_calls.
  repeat case_decide;
    rewrite ?elem_of_cons, ?elem_of_app, ?list_elem_of_fmap,
      ?elem_of_cons, ?elem_of_nil;
    intros Hin; decompose [or ex and] Hin; done.
Qed.

Lemma write_calls_touch (input_path output_path text format : str) :
  Forall (touches_only input_path output_path)
    (write_calls output_path text format).
Proof.
  unfold write_calls.
  repeat case_decide;
    rewrite ?Forall_cons, ?Forall_app, ?Forall_fmap, ?Forall_singleton;
    split_and?; try done;
    first [ by repeat constructor | apply Forall_forall; by intros ? ? ].
Qed.

(** X1: the docx branch of [write_file] creates a document, adds the lines
    of the text as paragraphs, one call per line and in order, and saves the
    document last.  When none of these calls raises, all are made and
    [write_file] returns; otherwise it makes the calls up to the first one
    that raises, that one included, and raises its exception.  The lines
    are one more than the line feeds of the text, none has a line feed, and
    joined by line feeds they are the text; an empty text gives one empty
    paragraph. *)
Theorem write_file_docx_paragraphs (L : Libraries) (output_path text : str)
    (log : list call) :
  ∃ calls,
    calls = Document_new :: (add_paragraph <$> split_lines text)
              ++ [Document_save output_path]
    ∧ (none_raises L log calls
       ∧ write_file L output_path text (lit "docx") log
         = (log ++ calls, inr tt)
       ∨ ∃ pre c rest e,
           calls = pre ++ c :: rest
           ∧ none_raises L log pre
           ∧ refused L (log ++ pre) c = Some e
           ∧ write_file L output_path text (lit "docx") log
             = (log ++ pre ++ [c], inl (LibraryError e)))
    ∧ (none_raises L log calls →
       write_file L output_path text (lit "docx") log
       = (log ++ calls, inr tt))
    ∧ length (split_lines text) = S (line_feeds text)
    ∧ Forall (λ line, newline ∉ line) (split_lines text)
    ∧ join_lines (split_lines text) = text
    ∧ split_lines [] = [[]].
Proof.
  exists (write_calls output_path text (lit "docx")).
  destruct (write_file_stops L output_path text (lit "docx") log)
    as [Hstops Hok]; [right; by left|].
  split_and!; [apply write_calls_docx|done|done|apply length_split_lines
              |apply split_lines_no_newline|apply join_split_lines|done].
Qed.

(** X2: the pdf branch of [write_file] creates the document, adds a page,
    turns automatic page breaks on with margin 15, selects Arial at size 12,
    writes the lines of the text as cells of width 0 and height 10, one call
    per line and in order, and outputs the file last.  When none of these
    calls raises, all are made and [write_file] returns; otherwise it makes
    the calls up to the first one that raises, that one included, and raises
    its exception.  The cells are one more than the line feeds of the
    text. *)
Theorem write_file_pdf_cells (L : Libraries) (output_path text : str)
    (log : list call) :
  ∃ calls,
    calls = [FPDF_new; add_page; set_auto_page_break true 15;
             set_font (lit "Arial") 12]
              ++ (multi_cell 0 10 <$> split_lines text)
              ++ [FPDF_output output_path]
    ∧ (none_raises L log calls
       ∧ write_file L output_path text (lit "pdf") log
         = (log ++ calls, inr tt)
       ∨ ∃ pre c rest e,
           calls = pre ++ c :: rest
           ∧ none_raises L log pre
           ∧ refused L (log ++ pre) c = Some e
           ∧ write_file L output_path text (lit "pdf") log
             = (log ++ pre ++ [c], inl (LibraryError e)))
    ∧ (none_raises L log calls →
       write_file L output_path text (lit "pdf") log
       = (log ++ calls, inr tt))
    ∧ length (multi_cell 0 10 <$> split_lines text) = S (line_feeds text).
Proof.
  exists (write_calls output_path text (lit "pdf")).
  destruct (write_file_stops L output_path text (lit "pdf") log)
    as [Hstops Hok]; [right; by right|].
  split_and!; [apply write_calls_pdf|done|done
              |by rewrite length_fmap, length_split_lines].
Qed.

(** X3: a text written as docx and read back is the text again, when the
    document library gives back, for the path, the paragraphs that the write
    added. *)
Theorem docx_written_then_read (L : Libraries) (path text : str)
    (log log1 log2 : list call) :
  write_file L path text (lit "docx") log = (log1, inr tt) →
  suffix L path = lit ".docx" →
  paragraphs L log2 path
  = inr (added_paragraphs (drop (length log) log1)) →
  read_file L path log2 = (log2 ++ [Document_open path], inr text).
Proof.
  intros Hwrite Hsuffix Hdoc.
  destruct (for_each_perform L (write_calls path text (lit "docx")) log)
    as (made & Hlog & _ & Hres).
  rewrite <- write_file_run in Hlog, Hres by (right; by left).
  rewrite Hwrite in Hlog, Hres. simpl in Hlog, Hres.
  destruct Hres as [-> _]. subst log1.
  rewrite drop_app_length, write_calls_docx, added_paragraphs_docx in Hdoc.
  destruct (read_file_run L path log2)
    as [(_ & Hne & _)|[[Htxt _]|[_ ->]]]; [done| |].
  - rewrite Hsuffix in Htxt. discriminate.
  - by rewrite Hdoc, join_split_lines.
Qed.

Lemma docx_written_then_read_witness :
  read_file (sample_libraries (lit ".docx") []) (lit "out.docx")
    [spacy_load (lit "en_core_web_sm")]
  = ([spacy_load (lit "en_core_web_sm")] ++ [Document_open (lit "out.docx")],
     inr alice).
Proof.
  apply (docx_written_then_read (sample_libraries (lit ".docx") [])
           (lit "out.docx") alice []
           (write_file (sample_libraries (lit ".docx") []) (lit "out.docx")
              alice (lit "docx") []).1
           [spacy_load (lit "en_core_web_sm")]);
    vm_compute; reflexivity.
Defined.

(** X4: for a language other than ["english"] and ["hebrew"], [main] raises
    the [ValueError] of [load_language_model] without a single call: no
    model is loaded, no file is read or written, nothing is printed. *)
Theorem main_unsupported_language (L : Libraries)
    (input_path output_path language output_format : str)
    (log : list call) :
  language ≠ lit "english" → language ≠ lit "hebrew" →
  main L input_path output_path language output_format log
  = (log, inl (ValueError
       (lit "Unsupported language. Choose either 'english' or 'hebrew'."))).
Proof.
  intros Hne1 Hne2. unfold main.
  destruct (load_language_model_run L language log)
    as [(_ & _ & Hload)|(name & [[? _]|[? _]] & _)]; [|done..].
  by rewrite (io_bind_raised _ _ _ _ _ Hload).
Qed.

Lemma main_unsupported_language_witness :
  main (sample_libraries (lit ".txt") alice_spans) (lit "in.txt")
    (lit "out.txt") (lit "English") (lit "txt") []
  = ([], inl (ValueError
       (lit "Unsupported language. Choose either 'english' or 'hebrew'."))).
Proof.
  apply (main_unsupported_language
           (sample_libraries (lit ".txt") alice_spans) (lit "in.txt")
           (lit "out.txt") (lit "English") (lit "txt") []);
    vm_compute; discriminate.
Defined.

(** X5: for an input path whose suffix is neither [.txt] nor [.docx],
    [main] raises the [ValueError] of [read_file] once the model is loaded:
    the load is its only call, no file is read or written. *)
Theorem main_unsupported_input (L : Libraries)
    (input_path output_path language output_format name : str)
    (nlp : Language) (log : list call) :
  loads language name → models L log name = inr nlp →
  suffix L input_path ≠ lit ".txt" → suffix L input_path ≠ lit ".docx" →
  main L input_path output_path language output_format log
  = (log ++ [spacy_load name],
     inl (ValueError
       (lit "Unsupported file type. Supported types are: .txt, .docx"))).
Proof.
  intros Hname Hmodel Hne1 Hne2. unfold main.
  destruct (load_language_model_run L language log)
    as [(Hl1 & Hl2 & _)|(name' & Hname' & Hload)].
  { destruct Hname as [[? _]|[? _]]; done. }
  assert (name' = name) as ->.
  { destruct Hname as [[-> ->]|[-> ->]], Hname' as [[? ->]|[? ->]]; done. }
  rewrite Hmodel in Hload. rewrite (io_bind_returned _ _ _ _ _ Hload).
  destruct (read_file_run L input_path (log ++ [spacy_load name]))
    as [(_ & _ & Hread)|[[? _]|[? _]]]; [|done..].
  by rewrite (io_bind_raised _ _ _ _ _ Hread).
Qed.

Lemma main_unsupported_input_witness :
  main (sample_libraries (lit ".pdf") alice_spans) (lit "in.pdf")
    (lit "out.txt") (lit "english") (lit "txt") []
  = ([] ++ [spacy_load (lit "en_core_web_sm")],
     inl (ValueError
       (lit "Unsupported file type. Supported types are: .txt, .docx"))).
Proof.
  apply (main_unsupported_input
           (sample_libraries (lit ".pdf") alice_spans) (lit "in.pdf")
           (lit "out.txt") (lit "english") (lit "txt")
           (lit "en_core_web_sm") (detector (lit "en") alice_spans) []).
  - by left.
  - reflexivity.
  - vm_compute. discriminate.
  - vm_compute. discriminate.
Defined.

(** X6: for an output format other than ["txt"], ["docx"] and ["pdf"],
    [main] raises the [ValueError] of [write_file] only after the model is
    loaded, the input read and the pipeline run on it, none of which
    raised; the run of the pipeline is its last call: nothing is written
    and nothing is printed. *)
Theorem main_unsupported_output (L : Libraries)
    (input_path output_path language output_format text : str)
    (nlp : Language) (log log1 log2 : list call) :
  load_language_model L language log = (log1, inr nlp) →
  read_file L input_path log1 = (log2, inr text) →
  refused L log2 (nlp_call text) = None →
  ¬ supported_format output_format →
  main L input_path output_path language output_format log
  = (log2 ++ [nlp_call text],
     inl (ValueError
       (lit "Unsupported output format. Supported formats are: txt, docx, pdf."))).
Proof.
  intros Hload Hread Hpipe Hformat. unfold main.
  rewrite (io_bind_returned _ _ _ _ _ Hload).
  rewrite (io_bind_returned _ _ _ _ _ Hread).
  pose proof (anonymize_text_call_run L text nlp log2) as Hcore.
  rewrite Hpipe in Hcore.
  rewrite (io_bind_returned _ _ _ _ _ Hcore).
  by rewrite (io_bind_raised _ _ _ _ _
                (write_file_unsupported L _ _ _ _ Hformat)).
Qed.

Lemma main_unsupported_output_witness :
  main (sample_libraries (lit ".txt") alice_spans) (lit "in.txt")
    (lit "out.odt") (lit "english") (lit "odt") []
  = ([spacy_load (lit "en_core_web_sm"); open_read (lit "in.txt")]
       ++ [nlp_call alice],
     inl (ValueError
       (lit "Unsupported output format. Supported formats are: txt, docx, pdf."))).
Proof.
  apply (main_unsupported_output
           (sample_libraries (lit ".txt") alice_spans) (lit "in.txt")
           (lit "out.odt") (lit "english") (lit "odt") alice
           (detector (lit "en") alice_spans) []
           [spacy_load (lit "en_core_web_sm")]).
  - reflexivity.
  - reflexivity.
  - reflexivity.
  - intros [H|[H|H]]; vm_compute in H; discriminate.
Defined.

(** X15: when the call [nlp(text)] raises, on the text read with the model
    loaded, [main] raises its exception; that call is its last one: nothing
    is written and nothing is printed. *)
Theorem main_pipeline_raises (L : Libraries)
    (input_path output_path language output_format text e : str)
    (nlp : Language) (log log1 log2 : list call) :
  load_language_model L language log = (log1, inr nlp) →
  read_file L input_path log1 = (log2, inr text) →
  refused L log2 (nlp_call text) = Some e →
  main L input_path output_path language output_format log
  = (log2 ++ [nlp_call text], inl (LibraryError e)).
Proof.
  intros Hload Hread Hpipe. unfold main.
  rewrite (io_bind_returned _ _ _ _ _ Hload).
  rewrite (io_bind_returned _ _ _ _ _ Hread).
  pose proof (anonymize_text_call_run L text nlp log2) as Hcore.
  rewrite Hpipe in Hcore.
  by rewrite (io_bind_raised _ _ _ _ _ Hcore).
Qed.

Lemma main_pipeline_raises_witness :
  main (overlong_libraries (lit ".txt") alice_spans) (lit "in.txt")
    (lit "out.txt") (lit "english") (lit "txt") []
  = ([spacy_load (lit "en_core_web_sm"); open_read (lit "in.txt")]
       ++ [nlp_call alice],
     inl (LibraryError (lit "[E088] Text exceeds maximum"))).
Proof.
  apply (main_pipeline_raises
           (overlong_libraries (lit ".txt") alice_spans) (lit "in.txt")
           (lit "out.txt") (lit "english") (lit "txt") alice
           (lit "[E088] Text exceeds maximum")
           (detector (lit "en") alice_spans) []
           [spacy_load (lit "en_core_web_sm")]).
  - reflexivity.
  - reflexivity.
  - reflexivity.
Defined.

Lemma prefix_not_elem_of {A : Type} (x : A) (l k : list A) :
  l `prefix_of` k → x ∉ k → x ∉ l.
Proof. intros [k' ->] Hx Hl. apply Hx, elem_of_app. by left. Qed.

(** X7: [main] prints nothing but the confirmation, and prints it only as
    its last call, right after the call that completes the output file,
    which did not raise; and whenever [main] returns, that is how its calls
    end. *)
Theorem main_confirms_after_write (L : Libraries)
    (input_path output_path language output_format : str)
    (made : list call) (result : raised + unit) (message : str) :
  main L input_path output_path language output_format [] = (made, result) →
  print_ message ∈ made ∨ result = inr tt →
  ∃ pre w,
    made = pre ++ [w; print_ (confirmation output_path)]
    ∧ (print_ message ∈ made → message = confirmation output_path)
    ∧ completes output_path w
    ∧ refused L pre w = None
    ∧ Forall (λ c, ∀ m, c ≠ print_ m) (pre ++ [w]).
Proof.
  intros Hmain Hprinted.
  destruct (main_shape L input_path output_path language output_format)
    as (loaded & read & piped & written & printed & result' & Hshape
        & Hloaded & Hread & Hpiped & Hwritten & Hprint).
  rewrite Hmain in Hshape. injection Hshape as -> ->.
  assert (Hquiet : Forall (λ c, ∀ m, c ≠ print_ m)
                     (loaded ++ read ++ piped ++ written)).
  { rewrite !Forall_app. split_and!.
    - destruct Hloaded as [->|(name & _ & ->)]; by repeat constructor.
    - destruct Hread as [->|[->| ->]]; by repeat constructor.
    - destruct Hpiped as [->|(text & ->)]; by repeat constructor.
    - destruct Hwritten as [->|(text & _ & Hprefix)]; [constructor|].
      apply Forall_forall. intros c Hc m ->.
      eapply prefix_not_elem_of;
        [exact Hprefix|apply write_calls_no_print|exact Hc]. }
  destruct Hprint as [[-> Hfailed]|(-> & (text & Hformat & Hwrote) & Hok)].
  { exfalso. destruct Hprinted as [Hin|Hres]; [|done].
    rewrite !app_nil_r in Hin. rewrite Forall_forall in Hquiet.
    by apply (Hquiet _ Hin message). }
  destruct (write_calls_last output_path text output_format)
    as (init & w & Hlast & Hw).
  exists (loaded ++ read ++ piped ++ init), w. rewrite Hwrote, Hlast in *.
  split_and!.
  - by rewrite <- !app_assoc.
  - rewrite !app_assoc, elem_of_app, list_elem_of_singleton.
    intros [Hin|Heq]; [|by injection Heq].
    rewrite Forall_forall in Hquiet. rewrite <- !app_assoc in Hin.
    by destruct (Hquiet _ Hin message).
  - done.
  - by apply (Hok init w []).
  - by rewrite <- !app_assoc.
Qed.

Lemma main_confirms_after_write_witness :
  ∃ pre w,
    (main (sample_libraries (lit ".txt") alice_spans) (lit "in.txt")
       (lit "out.pdf") (lit "english") (lit "pdf") []).1
    = pre ++ [w; print_ (confirmation (lit "out.pdf"))]
    ∧ completes (lit "out.pdf") w
    ∧ refused (sample_libraries (lit ".txt") alice_spans) pre w = None.
Proof.
  destruct (main_confirms_after_write
              (sample_libraries (lit ".txt") alice_spans) (lit "in.txt")
              (lit "out.pdf") (lit "english") (lit "pdf")
              (main (sample_libraries (lit ".txt") alice_spans)
                 (lit "in.txt") (lit "out.pdf") (lit "english")
                 (lit "pdf") []).1
              (inr tt) (confirmation (lit "out.pdf")))
    as (pre & w & Hmade & _ & Hw & Hok & _).
  - vm_compute. reflexivity.
  - by right.
  - exists pre, w. split_and!; [exact Hmade|exact Hw|exact Hok].
Defined.

(** X8: whatever the libraries answer, the only file [main] reads is the
    one at the input path and the only file it writes is the one at the
    output path. *)
Theorem main_touches_only_its_paths (L : Libraries)
    (input_path output_path language output_format : str) :
  Forall (touches_only input_path output_path)
    (main L input_path output_path language output_format []).1.
Proof.
  destruct (main_shape L input_path output_path language output_format)
    as (loaded & read & piped & written & printed & result & -> & Hloaded
        & Hread & Hpiped & Hwritten & Hprint).
  cbn [fst]. rewrite !Forall_app. split_and!.
  - destruct Hloaded as [->|(name & _ & ->)]; by repeat constructor.
  - destruct Hread as [->|[->| ->]]; by repeat constructor.
  - destruct Hpiped as [->|(text & ->)]; by repeat constructor.
  - destruct Hwritten as [->|(text & _ & [rest Hprefix])]; [constructor|].
    pose proof (write_calls_touch input_path output_path text output_format)
      as Htouch.
    rewrite Hprefix in Htouch. by apply Forall_app in Htouch as [? _].
  - destruct Hprint as [[-> _]|(-> & _)]; by repeat constructor.
Qed.



(** ** More on [anonymize_text] *)

Lemma placeholder_mapping_keys (nlp : Language) (label : str) :
  is_Some (placeholder_mapping nlp !! label)
  ↔ label ∈ [lit "PERSON"; lit "DATE"; lit "GPE"].
Proof.
  unfold placeholder_mapping. rewrite !lookup_insert_is_Some.
  rewrite lookup_empty, <- not_eq_None_Some, !elem_of_cons, elem_of_nil.
  split.
  - intros [?|[_ [?|[_ [?|[_ ?]]]]]]; auto.
  - intros [->|[->|[->|[]]]].
    + by left.
    + right. split; [done|]. by left.
    + right. split; [done|]. right. split; [done|]. by left.
Qed.

Lemma in_scope_ents_none (m : gmap str str) (entities : list Span.t) :
  Forall (λ ent, ¬ in_scope m ent) entities → in_scope_ents m entities = [].
Proof.
  unfold in_scope_ents. induction 1 as [|ent entities Hent _ IH]; [done|].
  by rewrite filter_cons_False.
Qed.

(** X10: whatever the language, [anonymize_text] returns the text as it is
    when no detected entity is labelled PERSON, DATE or GPE: entities under
    every other label are left alone. *)
Theorem anonymize_text_other_labels (text : str) (nlp : Language) :
  Forall (λ ent, Span.label_ ent ∉ [lit "PERSON"; lit "DATE"; lit "GPE"])
    (ents (pipe nlp text)) →
  anonymize_text text nlp = Return text.
Proof.
  intros Hlabels. rewrite anonymize_text_body, anonymize_assigned.
  unfold assigned. rewrite in_scope_ents_none; [done|].
  eapply Forall_impl; [exact Hlabels|].
  intros ent Hent Hin. by apply Hent, (placeholder_mapping_keys nlp).
Qed.

Lemma anonymize_text_other_labels_witness :
  anonymize_text (lit "Acme met Apple in the Alps")
    (detector (lit "he")
       [(0, 4, lit "ORG"); (9, 14, lit "ORG"); (22, 26, lit "LOC")])
  = Return (lit "Acme met Apple in the Alps").
Proof.
  apply (anonymize_text_other_labels (lit "Acme met Apple in the Alps")
           (detector (lit "he")
              [(0, 4, lit "ORG"); (9, 14, lit "ORG"); (22, 26, lit "LOC")])).
  repeat constructor; vm_compute;
    intros Hin; repeat (apply elem_of_cons in Hin as [Hin|Hin];
                        [discriminate|]);
    by apply elem_of_nil in Hin.
Defined.

Lemma reference_from_has_placeholder (text : str) (ltr : list replacement)
    (r : replacement) :
  r ∈ ltr →
  ∀ cursor stop, ∃ X Y, reference_from text cursor ltr stop = X ++ r.2 ++ Y.
Proof.
  induction ltr as [|[[s e] p] ltr IH]; intros Hr cursor stop.
  - by apply elem_of_nil in Hr.
  - apply elem_of_cons in Hr as [->|Hr]; simpl.
    + by eexists _, _.
    + destruct (IH Hr e stop) as (X & Y & ->).
      exists (slice text cursor s ++ p ++ X), Y. by rewrite <- !app_assoc.
Qed.

(** X11: when the in-scope spans are valid, do not overlap and have no
    zero-length span listed before a non-empty span that starts at the same
    offset, the placeholder of every replacement the first loop builds
    stands whole in the text returned. *)
Theorem placeholders_stand_in_output (text : str) (entities : list Span.t)
    (m : gmap str str) :
  Forall (valid_span text) (in_scope_ents m entities) →
  pairwise (λ a b, non_overlapping a b ∧ ¬ empty_at_start_of a b)
    (in_scope_ents m entities) →
  ∃ placeholder_counter replacements out,
    assign_loop m entities (∅, [])
    = Return (placeholder_counter, replacements)
    ∧ anonymize text entities m = Return out
    ∧ length replacements = length (in_scope_ents m entities)
    ∧ ∀ r, r ∈ replacements → ∃ X Y, out = X ++ r.2 ++ Y.
Proof.
  intros Hvalid Hpairs.
  destruct (assign_loop_assigned m entities) as [c Hrun].
  destruct (anonymize_chain text entities m Hvalid Hpairs)
    as (_ & _ & _ & Hout).
  exists c, (assigned m entities). eexists.
  split_and!; [done|done|unfold assigned; by rewrite length_fmap|].
  intros r Hr. apply reference_from_has_placeholder.
  by rewrite reverse_Permutation, sorted_reverse_perm.
Qed.

Lemma placeholders_stand_in_output_witness :
  ∃ placeholder_counter replacements out,
    assign_loop person_only (detected alice <$> alice_spans) (∅, [])
    = Return (placeholder_counter, replacements)
    ∧ anonymize alice (detected alice <$> alice_spans) person_only
      = Return out
    ∧ length replacements
      = length (in_scope_ents person_only (detected alice <$> alice_spans))
    ∧ ∀ r, r ∈ replacements → ∃ X Y, out = X ++ r.2 ++ Y.
Proof.
  apply (placeholders_stand_in_output alice
           (detected alice <$> alice_spans) person_only); crunch_spans.
Defined.

Lemma ordinal_bounds (E : list Span.t) (x : str) :
  x ∈ Span.text <$> E →
  (1 ≤ ordinal E x ≤ length (remove_dups (Span.text <$> E)))%nat.
Proof.
  intros Hx.
  destruct (first_occurrence_Some E x Hx) as (i & ent & Hfind & Hi & Ht & Hlt).
  unfold ordinal, seen_before. rewrite Hfind.
  apply list_find_Some in Hfind as (_ & _ & Hmin).
  enough (length (remove_dups (Span.text <$> take i E))
          < length (remove_dups (Span.text <$> E)))%nat by lia.
  apply distinct_grows with x; [|done|].
  - intros y (e & -> & He)%list_elem_of_fmap. apply list_elem_of_fmap.
    exists e. split; [done|].
    by apply (sublist_subseteq _ _ (sublist_take E i)).
  - intros (e & Hte & He)%list_elem_of_fmap.
    apply list_elem_of_lookup in He as [k Hk].
    apply lookup_take_Some in Hk as [Hk Hki].
    by apply (Hmin k e).
Qed.

(** Every number from 1 to the number of distinct texts is the ordinal of a
    text. *)
Lemma ordinal_onto (E : list Span.t) (k : nat) :
  (1 ≤ k ≤ length (remove_dups (Span.text <$> E)))%nat →
  ∃ x, x ∈ Span.text <$> E ∧ ordinal E x = k.
Proof.
  intros Hk. set (texts := remove_dups (Span.text <$> E)) in *.
  assert (Hperm : ordinal E <$> texts ≡ₚ seq 1 (length texts)).
  { apply submseteq_length_Permutation.
    - apply NoDup_submseteq.
      + apply NoDup_fmap_2_strong; [|apply NoDup_remove_dups].
        intros x y Hx Hy. unfold texts in Hx, Hy.
        rewrite elem_of_remove_dups in Hx, Hy. by apply (ordinal_inj E).
      + intros o (x & -> & Hx)%list_elem_of_fmap.
        unfold texts in Hx. rewrite elem_of_remove_dups in Hx.
        apply elem_of_seq. pose proof (ordinal_bounds E x Hx) as Hb.
        fold texts in Hb. lia.
    - by rewrite length_seq, length_fmap. }
  assert (Hin : k ∈ seq 1 (length texts)) by (apply elem_of_seq; lia).
  rewrite <- Hperm in Hin.
  apply list_elem_of_fmap in Hin as (x & -> & Hx).
  unfold texts in Hx. rewrite elem_of_remove_dups in Hx. by exists x.
Qed.

(** X12: when the first loop ends, [placeholder_counter] has one key per
    distinct text of the in-scope entities, and the numbers of its
    placeholders are the numbers from 1 to its size, none skipped. *)
Theorem placeholder_counter_contiguous (entities : list Span.t)
    (m : gmap str str) :
  ∃ placeholder_counter replacements,
    assign_loop m entities (∅, [])
    = Return (placeholder_counter, replacements)
    ∧ (∀ x, is_Some (placeholder_counter !! x)
            ↔ x ∈ Span.text <$> in_scope_ents m entities)
    ∧ size placeholder_counter
      = length (remove_dups (Span.text <$> in_scope_ents m entities))
    ∧ (∀ k, (1 ≤ k ≤ size placeholder_counter)%nat
            ↔ ∃ x w, placeholder_counter !! x = Some (fstring w k)).
Proof.
  destruct (assign_loop_spec m entities [] (∅, []))
    as ([c rs] & Hrun & Hseen & Hfree & Hsize & _);
    [apply assigned_so_far_init|].
  cbn [fst snd app] in *. exists c, rs.
  set (E := in_scope_ents m entities) in *.
  split_and!; [done| |done|].
  - intros x. split.
    + intros Hx. destruct (decide (x ∈ Span.text <$> E)) as [|Hout]; [done|].
      rewrite (Hfree x Hout) in Hx. by destruct Hx.
    + intros Hx. rewrite (Hseen x Hx). by eexists.
  - intros k. rewrite Hsize. split.
    + intros Hk. destruct (ordinal_onto E k Hk) as (x & Hx & <-).
      exists x, (word m E x). by rewrite (Hseen x Hx).
    + intros (x & w & Hx).
      destruct (decide (x ∈ Span.text <$> E)) as [Hin|Hout].
      * rewrite (Hseen x Hin) in Hx. injection Hx as Hx.
        apply fstring_inj in Hx as [_ <-]. by apply ordinal_bounds.
      * by rewrite (Hfree x Hout) in Hx.
Qed.

(** ** A document read and written back *)





(** ** The order of the calls of [main] *)

(** X14: whatever the libraries answer, the calls of [main] are, in this
    order: at most one model load, of [en_core_web_sm] for ["english"] and
    of [he_core_news_sm] for ["hebrew"]; at most one read, of the input
    path; at most one run of the pipeline; the calls of the write for the
    format asked for, as far as they went; and the confirmation, which is
    there only when the write is complete and none of its calls raised, and
    without which [main] does not return. *)
Theorem main_call_order (L : Libraries)
    (input_path output_path language output_format : str) :
  ∃ loaded read piped written printed result,
    main L input_path output_path language output_format []
    = (loaded ++ read ++ piped ++ written ++ printed, result)
    ∧ (loaded = [] ∨ ∃ name, loads language name ∧ loaded = [spacy_load name])
    ∧ (read = [] ∨ read = [open_read input_path]
       ∨ read = [Document_open input_path])
    ∧ (piped = [] ∨ ∃ text, piped = [nlp_call text])
    ∧ (written = []
       ∨ ∃ text, supported_format output_format
                 ∧ written `prefix_of`
                     write_calls output_path text output_format)
    ∧ (printed = [] ∧ result ≠ inr tt
       ∨ printed = [print_ (confirmation output_path)]
         ∧ (∃ text, supported_format output_format
                    ∧ written = write_calls output_path text output_format)
         ∧ ∀ pre c rest, written = pre ++ c :: rest →
                         refused L (loaded ++ read ++ piped ++ pre) c = None).
Proof. apply main_shape. Qed.
